(** * Receiver: incremental demultiplexer of binary and text packets

    A shallow embedding of [Receiver::Receive] (src/main.cpp) together with
    the wire constants, the [BinSize] union, the [pack] encoder (one
    element and a whole tuple) and [isTopValueEqual] used by the self-test
    in [main], and the properties of the parser and of the encoder.

    Conventions of the embedding:
    - a [Byte] is a [Byte.byte] (the C++ [uint8_t]);
    - a pointer into the scanned block is the offset from [beginData]
      (a [nat]); [endData] is the length of the block;
    - the 32-bit payload length is a [Z], compared with [left] in [Z];
    - the call-back object is the ordered log of its invocations;
    - the host is little-endian (the program relies on [__bswap_32] to turn
      the host representation into network order). *)

From Stdlib Require Import List ZArith Lia Bool Arith.
From Stdlib Require Import Strings.Byte.
Import ListNotations.

Local Open Scope nat_scope.

(** ** Wire constants *)

Definition Byte := Byte.byte.

Definition START_BYTE_BINARY_BLOCK : Byte := x24.

Definition ENDING_TEXT_BLOCK : list Byte := [x0d; x0a; x0d; x0a].

(** [sizeof(START_BYTE_BINARY_BLOCK)] and [sizeof(BinSize)]. *)
Definition sizeof_START_BYTE_BINARY_BLOCK : nat := 1.
Definition sizeof_BinSize : nat := 4.

Definition BINARY_HEADER_SIZE : nat :=
  sizeof_START_BYTE_BINARY_BLOCK + sizeof_BinSize.

(** ** The [BinSize] union and the byte swap *)

Definition byte_val (b : Byte) : Z := Z.of_N (Byte.to_N b).

(** [BinSize{b0, b1, b2, b3}.size]: the four bytes overlaid by a
    [uint32_t] on a little-endian host. *)
Definition BinSize_size (b0 b1 b2 b3 : Byte) : Z :=
  Z.lor (Z.lor (byte_val b0) (Z.shiftl (byte_val b1) 8))
        (Z.lor (Z.shiftl (byte_val b2) 16) (Z.shiftl (byte_val b3) 24)).

(** [BinSize{.size = x}.bytes]: the inverse view, byte [i] of the word. *)
Definition BinSize_bytes (x : Z) : list Byte :=
  map (fun k => match Byte.of_N (Z.to_N (Z.land (Z.shiftr x k) 255)) with
                | Some b => b
                | None => x00
                end)
      [0; 8; 16; 24]%Z.

(** [__bswap_32] of <byteswap.h>. *)
Definition bswap_32 (x : Z) : Z :=
  Z.lor (Z.lor (Z.shiftr (Z.land x 0xff000000) 24)
               (Z.shiftr (Z.land x 0x00ff0000) 8))
        (Z.lor (Z.shiftl (Z.land x 0x0000ff00) 8)
               (Z.shiftl (Z.land x 0x000000ff) 24)).

(** The number formed by four bytes, the first being the most significant. *)
Definition big_endian (b0 b1 b2 b3 : Byte) : Z :=
  (byte_val b0 * 2 ^ 24 + byte_val b1 * 2 ^ 16
   + byte_val b2 * 2 ^ 8 + byte_val b3)%Z.

(** ** The call-back *)

(** One invocation of [ICallback]: which method, and the bytes
    [data .. data + size) it was given. *)
Inductive Packet : Type :=
| BinaryPacket (bytes : list Byte)
| TextPacket (bytes : list Byte).

Definition packet_bytes (p : Packet) : list Byte :=
  match p with
  | BinaryPacket bs => bs
  | TextPacket bs => bs
  end.

(** ** Pointer-level helpers *)

(** [*p] for an offset [p] into [block]. *)
Definition deref (block : list Byte) (p : nat) : Byte := nth p block x00.

(** The range [p .. p + n) of [block]. *)
Definition range (block : list Byte) (p n : nat) : list Byte :=
  firstn n (skipn p block).

(** Does [pat] start [l]? *)
Fixpoint starts_with (pat l : list Byte) : bool :=
  match pat, l with
  | [], _ => true
  | _ :: _, [] => false
  | p :: pat', x :: l' => Byte.eqb p x && starts_with pat' l'
  end.

(** [std::search(first, last, s_first, s_last) - first] on the range [hay]:
    the offset of the first occurrence of [pat], and [length hay] (that is,
    [last]) when there is none. *)
Fixpoint search (hay pat : list Byte) : nat :=
  match hay with
  | [] => 0
  | _ :: tl => if starts_with pat hay then 0 else S (search tl pat)
  end.

(** ** The scanning loop of [Receive] *)

(** The variables the loop updates: [ptr], [data] (both as offsets from
    [beginData]) and the invocations of the call-back made so far. *)
Record Scan : Type := mkScan {
  ptr : nat;
  data : nat;
  calls : list Packet
}.

(** What one run of the loop body ends with. *)
Inductive Flow : Type :=
| Continue (s : Scan)
| Break (s : Scan).

Definition loop_body (block : list Byte) (s : Scan) : Flow :=
  let endData := length block in
  if Byte.eqb (deref block (ptr s)) START_BYTE_BINARY_BLOCK then
    let left := endData - ptr s in
    if BINARY_HEADER_SIZE <? left then
      let ptr1 := ptr s + sizeof_START_BYTE_BINARY_BLOCK in
      let payloadSize :=
        bswap_32 (BinSize_size (deref block ptr1) (deref block (ptr1 + 1))
                               (deref block (ptr1 + 2)) (deref block (ptr1 + 3))) in
      let ptr2 := ptr1 + sizeof_BinSize in
      let left := endData - ptr2 in
      if (payloadSize <=? Z.of_nat left)%Z then
        let n := Z.to_nat payloadSize in
        Continue (mkScan (ptr2 + n) (ptr2 + n)
                         (calls s ++ [BinaryPacket (range block ptr2 n)]))
      else
        Break (mkScan (data s) (data s) (calls s))
    else
      Break s
  else
    let it := ptr s + search (skipn (ptr s) block) ENDING_TEXT_BLOCK in
    if negb (it =? endData) then
      let packetSize := it - ptr s in
      Continue (mkScan (ptr s + (packetSize + length ENDING_TEXT_BLOCK)) (data s)
                       (calls s ++ [TextPacket (range block (ptr s) packetSize)]))
    else
      Break s.

(** [while (ptr < endData) { ... }], with [fuel] bounding the number of
    iterations. *)
Fixpoint loop (fuel : nat) (block : list Byte) (s : Scan) : Scan :=
  match fuel with
  | 0 => s
  | S fuel' =>
      if ptr s <? length block then
        match loop_body block s with
        | Continue s' => loop fuel' block s'
        | Break s' => s'
        end
      else s
  end.

(** The same loop as a relation: [while_loop block s s'] holds when the loop
    entered in [s] is left in [s']. *)
Inductive while_loop (block : list Byte) : Scan -> Scan -> Prop :=
| while_exit s :
    length block <= ptr s ->
    while_loop block s s
| while_break s s' :
    ptr s < length block ->
    loop_body block s = Break s' ->
    while_loop block s s'
| while_continue s s' s'' :
    ptr s < length block ->
    loop_body block s = Continue s' ->
    while_loop block s' s'' ->
    while_loop block s s''.

(** ** [Receiver] *)

(** The receiver: its private [buffer] and the log of the call-back it
    holds. *)
Record Receiver : Type := mkReceiver {
  buffer : list Byte;
  callback : list Packet
}.

Definition empty (v : list Byte) : bool :=
  match v with
  | [] => true
  | _ :: _ => false
  end.

(** A receiver as [main] builds it. *)
Definition fresh : Receiver := mkReceiver [] [].

(** The block scanned by [Receive input] and the buffer after the append. *)
Definition scanned (r : Receiver) (input : list Byte) : list Byte :=
  if negb (empty (buffer r)) then buffer r ++ input else input.

Definition scan (r : Receiver) (input : list Byte) : Scan :=
  let block := scanned r input in
  loop (length block) block (mkScan 0 0 (callback r)).

Definition Receive (input : list Byte) (r : Receiver) : Receiver :=
  if length input =? 0 then r
  else
    let buffer1 := if negb (empty (buffer r)) then buffer r ++ input
                   else buffer r in
    let block := scanned r input in
    let size := length block in
    let s := scan r input in
    let processedBytes := ptr s in
    let unprocessedBytes := size - processedBytes in
    let buffer2 :=
      if negb (empty buffer1) && (0 <? processedBytes) then
        skipn processedBytes buffer1
      else if empty buffer1 && (0 <? unprocessedBytes) then
        buffer1 ++ range block (ptr s) unprocessedBytes
      else buffer1 in
    mkReceiver buffer2 (calls s).

(** Successive calls of [Receive], one per chunk, in order. *)
Definition Receive_all (chunks : list (list Byte)) (r : Receiver) : Receiver :=
  fold_left (fun acc chunk => Receive chunk acc) chunks r.

(** ** The encoder [pack] *)

(** The object representation of an integer of [size] bytes on the host:
    least significant byte first. *)
Fixpoint object_bytes (size : nat) (value : Z) : list Byte :=
  match size with
  | 0 => []
  | S size' =>
      match Byte.of_N (Z.to_N (Z.land value 255)) with
      | Some b => b
      | None => x00
      end :: object_bytes size' (Z.shiftr value 8)
  end.

(** [pack<T>(value, pos, ptr)] for a POD [T] of [size] bytes: the bytes it
    writes at [pos]. *)
Definition pack_pod (size : nat) (value : Z) : list Byte :=
  START_BYTE_BINARY_BLOCK
    :: BinSize_bytes (bswap_32 (Z.of_nat size))
    ++ object_bytes size value.

(** [pack<const char *>]: the characters, then the ending. *)
Definition pack_text (value : list Byte) : list Byte :=
  value ++ ENDING_TEXT_BLOCK.

(** The unsigned number held by an object representation. *)
Fixpoint object_value (bytes : list Byte) : Z :=
  match bytes with
  | [] => 0
  | b :: tl => (byte_val b + 256 * object_value tl)%Z
  end.

(** [*reinterpret_cast<long long *>(bytes.data())]: the first 8 bytes read
    as a signed 64-bit integer. *)
Definition as_long_long (bytes : list Byte) : Z :=
  let u := object_value (firstn 8 bytes) in
  if (u <? 2 ^ 63)%Z then u else (u - 2 ^ 64)%Z.

(** [isTopValueEqual(values, value)] on the payload of the last packet. *)
Definition top_value_equal (log : list Packet) (value : Z) : bool :=
  match rev log with
  | [] => false
  | p :: _ => (as_long_long (packet_bytes p) =? value)%Z
  end.

(** ** Vocabulary of the statements *)

(** An occurrence of [pat] in [l]. *)
Definition occurs (pat l : list Byte) : Prop :=
  exists pre post, l = pre ++ pat ++ post.

(** How many times the byte [b] occurs in [l]. *)
Definition count (b : Byte) (l : list Byte) : nat :=
  length (filter (Byte.eqb b) l).

(** All the bytes handed to the call-back, in order. *)
Definition delivered (log : list Packet) : list Byte :=
  flat_map packet_bytes log.

(** ** Streams used below *)

(** The text ["ab"], packed. *)
Definition text_ab : list Byte := pack_text [x61; x62].

(** A binary packet with the two-byte payload ["xy"]. *)
Definition binary_xy : list Byte := [x24; x00; x00; x00; x02; x78; x79].

(** A text packet followed by a binary packet: a full stream. *)
Definition text_then_binary : list Byte := text_ab ++ binary_xy.

(** The same stream without its last byte, and that last byte. *)
Definition text_then_binary_head : list Byte :=
  firstn (length text_then_binary - 1) text_then_binary.
Definition text_then_binary_tail : list Byte :=
  skipn (length text_then_binary - 1) text_then_binary.

(** A binary packet with an empty payload: the header alone. *)
Definition binary_empty : list Byte := [x24; x00; x00; x00; x00].

(** [pack(std::make_tuple(static_cast<long long>(123456789)))]. *)
Definition packed_123456789 : list Byte := pack_pod 8 123456789.

(** ** [pack] on a tuple *)

(** One element of the tuple given to [pack]: a POD of [size] bytes whose
    object representation, read as an integer, is [value]; or a
    [const char *], given by its characters (the closing NUL left out, so
    that [strlen] is the length). *)
Inductive Value : Type :=
| Pod (size : nat) (value : Z)
| Text (chars : list Byte).

(** [std::memcpy(ptr + pos, bytes, n)] and [std::copy(.., ptr + pos)]: the
    block with [bytes] written at offset [pos]. *)
Definition store (block : list Byte) (pos : nat) (bytes : list Byte)
  : list Byte :=
  firstn pos block ++ bytes ++ skipn (pos + length bytes) block.

(** [pack<T>(value, pos, ptr)]: the block after the three writes, and the
    returned position. *)
Definition pack_T (size : nat) (value : Z) (pos : nat) (block : list Byte)
  : list Byte * nat :=
  let block := store block pos [START_BYTE_BINARY_BLOCK] in
  let pos := pos + sizeof_START_BYTE_BINARY_BLOCK in
  let block := store block pos (BinSize_bytes (bswap_32 (Z.of_nat size))) in
  let pos := pos + sizeof_BinSize in
  let block := store block pos (object_bytes size value) in
  let pos := pos + size in
  (block, pos).

(** [pack<const char *>(value, pos, ptr)]. *)
Definition pack_chars (value : list Byte) (pos : nat) (block : list Byte)
  : list Byte * nat :=
  let size := length value in
  let block := store block pos value in
  let pos := pos + size in
  let block := store block pos ENDING_TEXT_BLOCK in
  let pos := pos + length ENDING_TEXT_BLOCK in
  (block, pos).

Definition pack_value (v : Value) (pos : nat) (block : list Byte)
  : list Byte * nat :=
  match v with
  | Pod size value => pack_T size value pos block
  | Text chars => pack_chars chars pos block
  end.

(** The first lambda of [pack(std::tuple)]: the size of the block. *)
Definition sizeBlock (values : list Value) : nat :=
  fold_left (fun size v =>
               match v with
               | Text chars => size + (length chars + length ENDING_TEXT_BLOCK)
               | Pod n _ => size + (BINARY_HEADER_SIZE + n)
               end)
            values 0.

(** [pack(std::tuple<Ts...> &&values)]: a zeroed block of [sizeBlock]
    bytes, filled element by element from position 0. *)
Definition pack (values : list Value) : list Byte :=
  let block := repeat x00 (sizeBlock values) in
  fst (fold_left (fun acc v => pack_value v (snd acc) (fst acc))
                 values (block, 0)).

(** The bytes one element contributes, and the packet it is meant to
    become. *)
Definition encode (v : Value) : list Byte :=
  match v with
  | Pod size value => pack_pod size value
  | Text chars => pack_text chars
  end.

Definition packet_of (v : Value) : Packet :=
  match v with
  | Pod size value => BinaryPacket (object_bytes size value)
  | Text chars => TextPacket chars
  end.

Definition is_pod (v : Value) : bool :=
  match v with
  | Pod _ _ => true
  | Text _ => false
  end.

(** The elements [Receive] gives back as they were packed: a POD with at
    least one byte and a size that fits the length field; a text that does
    not begin with the start byte of a binary block and in which, even
    with the first three bytes of the ending appended, no ending occurs. *)
Definition receivable (v : Value) : Prop :=
  match v with
  | Pod size _ => 1 <= size /\ (Z.of_nat size < 2 ^ 32)%Z
  | Text chars =>
      hd x00 chars <> START_BYTE_BINARY_BLOCK
      /\ ~ occurs ENDING_TEXT_BLOCK (chars ++ firstn 3 ENDING_TEXT_BLOCK)
  end.

(** ** Vocabulary for runs of the loop *)

(** What a text packet handed to the call-back looks like. *)
Definition text_packet_clean (p : Packet) : Prop :=
  match p with
  | TextPacket bs =>
      ~ occurs ENDING_TEXT_BLOCK bs /\ hd x00 bs <> START_BYTE_BINARY_BLOCK
  | BinaryPacket _ => True
  end.

(** The loop variables seen from a block that has [k] more bytes in
    front. *)
Definition shift (k : nat) (s : Scan) : Scan :=
  mkScan (k + ptr s) (k + data s) (calls s).

Definition shift_flow (k : nat) (f : Flow) : Flow :=
  match f with
  | Continue s => Continue (shift k s)
  | Break s => Break (shift k s)
  end.

(** [steps block s t]: the loop entered in [s] reaches the top of the loop
    in [t] after some iterations, none of which left it. *)
Inductive steps (block : list Byte) : Scan -> Scan -> Prop :=
| steps_here s : steps block s s
| steps_next s s' t :
    ptr s < length block ->
    loop_body block s = Continue s' ->
    steps block s' t ->
    steps block s t.

(** The bytes a packet takes in the stream: its own, and its header or
    its ending. *)
Definition wire_size (p : Packet) : nat :=
  match p with
  | BinaryPacket bs => BINARY_HEADER_SIZE + length bs
  | TextPacket bs => length bs + length ENDING_TEXT_BLOCK
  end.

Definition is_text (p : Packet) : bool :=
  match p with
  | TextPacket _ => true
  | BinaryPacket _ => false
  end.

(** Is the last packet of the log a text packet? *)
Definition ends_with_text (log : list Packet) : bool :=
  match rev log with
  | p :: _ => is_text p
  | [] => false
  end.

(** * Properties *)

(** ** Bytes and words *)

Section Words.

Local Open Scope Z_scope.

Lemma byte_val_range (b : Byte) : 0 <= byte_val b < 256.
Proof.
  unfold byte_val.
  pose proof (Byte.to_N_bounded b) as Hb.
  lia.
Qed.

Lemma small_testbit (v n k : Z) :
  0 <= v < 2 ^ k -> 0 <= k <= n -> Z.testbit v n = false.
Proof.
  intros [Hlo Hhi] Hk.
  destruct (Z.eq_dec v 0) as [-> | Hnz].
  - apply Z.bits_0.
  - apply Z.bits_above_log2; [assumption |].
    apply Z.lt_le_trans with k; [| lia].
    apply Z.log2_lt_pow2; lia.
Qed.

(** A low part and a shifted high part do not overlap: or-ing adds. *)
Lemma lor_shiftl_add (lo hi k : Z) :
  0 <= k -> 0 <= lo < 2 ^ k -> Z.lor lo (Z.shiftl hi k) = lo + hi * 2 ^ k.
Proof.
  intros Hk Hlo.
  rewrite <- Z.shiftl_mul_pow2 by assumption.
  rewrite <- Z.lxor_lor, <- Z.add_nocarry_lxor; try reflexivity.
  all: apply Z.bits_inj'; intros n Hn;
    rewrite Z.land_spec, Z.bits_0;
    destruct (Z.lt_ge_cases n k) as [Hlt | Hge];
    [ rewrite (Z.shiftl_spec_low hi k n Hlt); apply andb_false_r
    | rewrite (small_testbit lo n k) by lia; reflexivity ].
Qed.

(** Masking the byte at bit [k] keeps that byte in place. *)
Lemma land_byte_mask (x k : Z) :
  0 <= k ->
  Z.land x (Z.shiftl 255 k) = Z.shiftl (Z.land (Z.shiftr x k) 255) k.
Proof.
  intros Hk.
  apply Z.bits_inj'; intros n Hn.
  rewrite Z.land_spec, !Z.shiftl_spec by assumption.
  destruct (Z.lt_ge_cases n k) as [Hlt | Hge].
  - rewrite !(Z.testbit_neg_r _ (n - k)) by lia. apply andb_false_r.
  - rewrite Z.land_spec, Z.shiftr_spec by lia.
    replace (n - k + k) with n by lia. reflexivity.
Qed.

Lemma byte_of_word (x k : Z) :
  0 <= k -> Z.land (Z.shiftr x k) 255 = (x / 2 ^ k) mod 256.
Proof.
  intros Hk.
  change 255 with (Z.ones 8).
  rewrite Z.land_ones by lia.
  rewrite Z.shiftr_div_pow2 by assumption.
  reflexivity.
Qed.

(** The union read on the host, as a number: least significant byte
    first. *)
Lemma BinSize_size_value (b0 b1 b2 b3 : Byte) :
  BinSize_size b0 b1 b2 b3
  = byte_val b0 + byte_val b1 * 2 ^ 8 + byte_val b2 * 2 ^ 16
    + byte_val b3 * 2 ^ 24.
Proof.
  unfold BinSize_size.
  pose proof (byte_val_range b0). pose proof (byte_val_range b1).
  pose proof (byte_val_range b2). pose proof (byte_val_range b3).
  assert (Hhigh : Z.lor (Z.shiftl (byte_val b2) 16) (Z.shiftl (byte_val b3) 24)
                  = Z.shiftl (byte_val b2 + byte_val b3 * 2 ^ 8) 16).
  { rewrite <- (lor_shiftl_add (byte_val b2) (byte_val b3) 8) by lia.
    rewrite Z.shiftl_lor, Z.shiftl_shiftl by lia.
    reflexivity. }
  rewrite Hhigh.
  rewrite (lor_shiftl_add (byte_val b0) (byte_val b1) 8) by lia.
  rewrite lor_shiftl_add by lia.
  lia.
Qed.

(** [__bswap_32] reverses the four bytes of a word. *)
Lemma bswap_32_value (x : Z) :
  bswap_32 x
  = (x / 2 ^ 24) mod 256 + (x / 2 ^ 16) mod 256 * 2 ^ 8
    + (x / 2 ^ 8) mod 256 * 2 ^ 16 + x mod 256 * 2 ^ 24.
Proof.
  unfold bswap_32.
  change 0xff000000 with (Z.shiftl 255 24).
  change 0x00ff0000 with (Z.shiftl 255 16).
  change 0x0000ff00 with (Z.shiftl 255 8).
  change 0x000000ff with (Z.shiftl 255 0).
  rewrite !land_byte_mask by lia.
  rewrite !byte_of_word by lia.
  rewrite !Z.shiftr_shiftl_l by lia.
  rewrite Z.shiftl_shiftl by lia.
  cbn [Z.sub Z.add Z.opp Z.pos_sub Pos.add Pos.succ Z.succ_double Z.pred_double
       Z.double Pos.pred_double Pos.add_carry].
  rewrite (Z.shiftl_0_r ((x / 2 ^ 24) mod 256)).
  rewrite Z.shiftl_0_r.
  replace (x / 2 ^ 0) with x by (rewrite Z.pow_0_r, Z.div_1_r; reflexivity).
  assert (H24 := Z.mod_pos_bound (x / 2 ^ 24) 256 eq_refl).
  assert (H16 := Z.mod_pos_bound (x / 2 ^ 16) 256 eq_refl).
  assert (H8 := Z.mod_pos_bound (x / 2 ^ 8) 256 eq_refl).
  assert (H0 := Z.mod_pos_bound x 256 eq_refl).
  rewrite (lor_shiftl_add ((x / 2 ^ 24) mod 256)) by lia.
  assert (Hhigh : Z.lor (Z.shiftl ((x / 2 ^ 8) mod 256) 16)
                        (Z.shiftl (x mod 256) 24)
                  = Z.shiftl ((x / 2 ^ 8) mod 256 + x mod 256 * 2 ^ 8) 16).
  { rewrite <- (lor_shiftl_add ((x / 2 ^ 8) mod 256) (x mod 256) 8) by lia.
    rewrite Z.shiftl_lor, Z.shiftl_shiftl by lia.
    reflexivity. }
  rewrite Hhigh.
  rewrite lor_shiftl_add by lia.
  lia.
Qed.

(** The length the parser computes is the big-endian reading of the four
    bytes. *)
Lemma payloadSize_big_endian (b0 b1 b2 b3 : Byte) :
  bswap_32 (BinSize_size b0 b1 b2 b3) = big_endian b0 b1 b2 b3.
Proof.
  rewrite bswap_32_value, BinSize_size_value.
  unfold big_endian.
  pose proof (byte_val_range b0). pose proof (byte_val_range b1).
  pose proof (byte_val_range b2). pose proof (byte_val_range b3).
  Z.div_mod_to_equations. lia.
Qed.

Lemma big_endian_range (b0 b1 b2 b3 : Byte) :
  0 <= big_endian b0 b1 b2 b3 < 2 ^ 32.
Proof.
  unfold big_endian.
  pose proof (byte_val_range b0). pose proof (byte_val_range b1).
  pose proof (byte_val_range b2). pose proof (byte_val_range b3).
  lia.
Qed.

End Words.

(** ** [std::search] *)

Lemma starts_with_app (pat post : list Byte) :
  starts_with pat (pat ++ post) = true.
Proof.
  induction pat as [| p pat IH]; simpl.
  - reflexivity.
  - rewrite (Byte.byte_dec_lb (eq_refl p)). exact IH.
Qed.

Lemma starts_with_split (pat l : list Byte) :
  starts_with pat l = true -> l = pat ++ skipn (length pat) l.
Proof.
  revert l.
  induction pat as [| p pat IH]; intros l H.
  - reflexivity.
  - destruct l as [| x l]; simpl in H; [discriminate |].
    apply andb_true_iff in H as [Hpx Hrest].
    apply Byte.byte_dec_bl in Hpx. subst x.
    simpl. f_equal. apply IH. exact Hrest.
Qed.

Lemma starts_with_length (pat l : list Byte) :
  starts_with pat l = true -> length pat <= length l.
Proof.
  intros H.
  pose proof (f_equal (@length Byte) (starts_with_split pat l H)) as Hlen.
  rewrite length_app in Hlen. lia.
Qed.

Lemma search_le (hay pat : list Byte) : search hay pat <= length hay.
Proof.
  induction hay as [| x hay IH]; simpl.
  - lia.
  - destruct (starts_with pat (x :: hay)); lia.
Qed.

(** When [search] stops before the end, the pattern is there... *)
Lemma search_hit (hay pat : list Byte) :
  search hay pat < length hay ->
  starts_with pat (skipn (search hay pat) hay) = true.
Proof.
  induction hay as [| x hay IH]; simpl; intros H.
  - lia.
  - destruct (starts_with pat (x :: hay)) eqn:E.
    + exact E.
    + apply IH. lia.
Qed.

(** ... and nowhere before. *)
Lemma search_first (hay pat : list Byte) (i : nat) :
  i < search hay pat -> starts_with pat (skipn i hay) = false.
Proof.
  revert i.
  induction hay as [| x hay IH]; simpl; intros i H.
  - lia.
  - destruct (starts_with pat (x :: hay)) eqn:E; [lia |].
    destruct i as [| i]; [exact E |].
    simpl. apply IH. lia.
Qed.

Lemma search_occurrence (pre pat post : list Byte) :
  pat <> [] -> search (pre ++ pat ++ post) pat <= length pre.
Proof.
  intros Hpat.
  induction pre as [| x pre IH].
  - destruct pat as [| p pat]; [contradiction |].
    simpl app. unfold search.
    change (p :: pat ++ post) with ((p :: pat) ++ post).
    rewrite starts_with_app. simpl. lia.
  - simpl app. simpl search.
    destruct (starts_with pat (x :: pre ++ pat ++ post)); simpl; lia.
Qed.

Lemma search_split (hay pat : list Byte) :
  search hay pat < length hay ->
  hay = firstn (search hay pat) hay
        ++ pat ++ skipn (search hay pat + length pat) hay.
Proof.
  intros H.
  rewrite <- (firstn_skipn (search hay pat) hay) at 1.
  f_equal.
  rewrite (starts_with_split pat _ (search_hit hay pat H)) at 1.
  rewrite skipn_skipn, (Nat.add_comm (length pat)).
  reflexivity.
Qed.

Lemma search_found_iff (hay pat : list Byte) :
  pat <> [] -> (search hay pat < length hay <-> occurs pat hay).
Proof.
  intros Hpat. split.
  - intros H. eexists. eexists. apply (search_split hay pat H).
  - intros (pre & post & ->).
    pose proof (search_occurrence pre pat post Hpat) as Hle.
    assert (0 < length pat) by (destruct pat; [contradiction | simpl; lia]).
    rewrite !length_app. lia.
Qed.

Lemma search_prefix_clean (hay pat : list Byte) :
  pat <> [] -> ~ occurs pat (firstn (search hay pat) hay).
Proof.
  intros Hpat (a & b & Hab).
  assert (Hlen : length (firstn (search hay pat) hay) = search hay pat)
    by (apply firstn_length_le, search_le).
  assert (Hhay : hay = a ++ pat ++ (b ++ skipn (search hay pat) hay)).
  { rewrite <- (firstn_skipn (search hay pat) hay) at 1.
    rewrite Hab, <- !app_assoc. reflexivity. }
  assert (Hocc : search hay pat <= length a).
  { rewrite Hhay at 1. apply search_occurrence, Hpat. }
  assert (0 < length pat) by (destruct pat; [contradiction | simpl; lia]).
  rewrite Hab, !length_app in Hlen. lia.
Qed.

Lemma ENDING_TEXT_BLOCK_nonempty : ENDING_TEXT_BLOCK <> [].
Proof. discriminate. Qed.

(** ** One run of the loop body *)

Lemma deref_skipn (block : list Byte) (p : nat) :
  deref block p = nth 0 (skipn p block) x00.
Proof.
  unfold deref. revert block.
  induction p as [| p IH]; intros [| x block]; simpl; auto.
Qed.

Lemma range_to_end (block : list Byte) (p : nat) :
  range block p (length block - p) = skipn p block.
Proof.
  unfold range. apply firstn_all2. rewrite length_skipn. lia.
Qed.

Lemma range_length (block : list Byte) (p n : nat) :
  n <= length block - p -> length (range block p n) = n.
Proof.
  intros H. unfold range. apply firstn_length_le. rewrite length_skipn. exact H.
Qed.

Lemma marker_test (b : Byte) :
  Byte.eqb b START_BYTE_BINARY_BLOCK = true <-> b = START_BYTE_BINARY_BLOCK.
Proof.
  split; [apply Byte.byte_dec_bl | apply Byte.byte_dec_lb].
Qed.

Lemma not_marker_test (b : Byte) :
  b <> START_BYTE_BINARY_BLOCK -> Byte.eqb b START_BYTE_BINARY_BLOCK = false.
Proof.
  intros H. destruct (Byte.eqb b START_BYTE_BINARY_BLOCK) eqn:E; [| reflexivity].
  apply marker_test in E. contradiction.
Qed.

(** The text branch, in terms of the rest of the block. *)
Lemma loop_body_text (block : list Byte) (s : Scan) :
  ptr s <= length block ->
  deref block (ptr s) <> START_BYTE_BINARY_BLOCK ->
  let rest := skipn (ptr s) block in
  let k := search rest ENDING_TEXT_BLOCK in
  loop_body block s
  = if k <? length rest then
      Continue (mkScan (ptr s + (k + length ENDING_TEXT_BLOCK)) (data s)
                       (calls s ++ [TextPacket (firstn k rest)]))
    else Break s.
Proof.
  intros Hptr Hmark rest k.
  unfold loop_body.
  rewrite (not_marker_test _ Hmark).
  fold rest. fold k.
  assert (Hrest : length rest = length block - ptr s)
    by (unfold rest; apply length_skipn).
  pose proof (search_le rest ENDING_TEXT_BLOCK) as Hk. fold k in Hk.
  destruct (Nat.ltb_spec k (length rest)) as [Hlt | Hge].
  - replace (ptr s + k =? length block) with false
      by (symmetry; apply Nat.eqb_neq; lia).
    simpl negb. cbv iota.
    replace (ptr s + k - ptr s) with k by lia.
    reflexivity.
  - replace (ptr s + k =? length block) with true
      by (symmetry; apply Nat.eqb_eq; lia).
    reflexivity.
Qed.

(** The binary branch, once the header test has passed. *)
Lemma loop_body_binary (block : list Byte) (s : Scan) :
  deref block (ptr s) = START_BYTE_BINARY_BLOCK ->
  BINARY_HEADER_SIZE < length block - ptr s ->
  let L := big_endian (deref block (ptr s + 1)) (deref block (ptr s + 2))
                      (deref block (ptr s + 3)) (deref block (ptr s + 4)) in
  let body := ptr s + BINARY_HEADER_SIZE in
  loop_body block s
  = if (L <=? Z.of_nat (length block - body))%Z then
      Continue (mkScan (body + Z.to_nat L) (body + Z.to_nat L)
                       (calls s ++ [BinaryPacket (range block body (Z.to_nat L))]))
    else Break (mkScan (data s) (data s) (calls s)).
Proof.
  intros Hmark Hleft L body.
  unfold loop_body.
  rewrite (proj2 (marker_test _) Hmark).
  rewrite (proj2 (Nat.ltb_lt _ _) Hleft).
  rewrite payloadSize_big_endian.
  unfold sizeof_START_BYTE_BINARY_BLOCK, sizeof_BinSize.
  replace (ptr s + 1 + 1) with (ptr s + 2) by lia.
  replace (ptr s + 1 + 2) with (ptr s + 3) by lia.
  replace (ptr s + 1 + 3) with (ptr s + 4) by lia.
  replace (ptr s + 1 + 4) with body
    by (subst body;
        cbv [BINARY_HEADER_SIZE sizeof_START_BYTE_BINARY_BLOCK sizeof_BinSize];
        lia).
  reflexivity.
Qed.

(** The header test fails: the loop is left with nothing changed. *)
Lemma loop_body_short_header (block : list Byte) (s : Scan) :
  deref block (ptr s) = START_BYTE_BINARY_BLOCK ->
  length block - ptr s <= BINARY_HEADER_SIZE ->
  loop_body block s = Break s.
Proof.
  intros Hmark Hleft.
  unfold loop_body.
  rewrite (proj2 (marker_test _) Hmark).
  rewrite (proj2 (Nat.ltb_ge _ _) Hleft).
  reflexivity.
Qed.

(** ** The loop terminates *)

Lemma loop_body_Continue_advances (block : list Byte) (s s' : Scan) :
  ptr s < length block ->
  loop_body block s = Continue s' ->
  ptr s < ptr s' <= length block.
Proof.
  intros Hptr Hbody.
  destruct (Byte.byte_eq_dec (deref block (ptr s)) START_BYTE_BINARY_BLOCK)
    as [Hmark | Hmark].
  - destruct (Nat.lt_ge_cases BINARY_HEADER_SIZE (length block - ptr s))
      as [Hleft | Hleft].
    + rewrite (loop_body_binary block s Hmark Hleft) in Hbody.
      cbv zeta in Hbody.
      pose proof (big_endian_range (deref block (ptr s + 1)) (deref block (ptr s + 2))
                                   (deref block (ptr s + 3)) (deref block (ptr s + 4)))
        as Hrange.
      destruct (_ <=? _)%Z eqn:Hle in Hbody; [| discriminate].
      apply Z.leb_le in Hle.
      injection Hbody as <-. simpl ptr.
      unfold BINARY_HEADER_SIZE, sizeof_START_BYTE_BINARY_BLOCK, sizeof_BinSize in *.
      lia.
    + rewrite (loop_body_short_header block s Hmark Hleft) in Hbody.
      discriminate.
  - rewrite (loop_body_text block s (Nat.lt_le_incl _ _ Hptr) Hmark) in Hbody.
    cbv zeta in Hbody.
    destruct (Nat.ltb_spec (search (skipn (ptr s) block) ENDING_TEXT_BLOCK)
                           (length (skipn (ptr s) block))) as [Hlt | Hge];
      [| discriminate].
    injection Hbody as <-. simpl ptr.
    pose proof (starts_with_length _ _ (search_hit _ _ Hlt)) as Hlen.
    rewrite !length_skipn in Hlen. rewrite length_skipn in Hlt.
    simpl length in *. lia.
Qed.

Lemma loop_while_loop (fuel : nat) (block : list Byte) (s : Scan) :
  length block - ptr s <= fuel -> while_loop block s (loop fuel block s).
Proof.
  revert s.
  induction fuel as [| fuel IH]; intros s Hfuel.
  - simpl. apply while_exit. lia.
  - simpl.
    destruct (Nat.ltb_spec (ptr s) (length block)) as [Hlt | Hge].
    + destruct (loop_body block s) as [s' | s'] eqn:Hbody.
      * apply while_continue with s'; [assumption | assumption |].
        apply IH.
        pose proof (loop_body_Continue_advances block s s' Hlt Hbody). lia.
      * apply while_break; assumption.
    + apply while_exit. exact Hge.
Qed.

Lemma while_loop_deterministic (block : list Byte) (s s1 s2 : Scan) :
  while_loop block s s1 -> while_loop block s s2 -> s1 = s2.
Proof.
  intros H1. revert s2.
  induction H1 as [s Hend | s s' Hlt Hbody | s s' s'' Hlt Hbody Hrest IH];
    intros s2 H2; inversion H2; subst; try lia; try congruence.
  apply IH.
  replace s' with s'0 by congruence.
  assumption.
Qed.

(** [data] never overtakes [ptr], and [ptr] never leaves the block: the
    differences [ptr - beginData] and [size - processedBytes] that
    [Receive] computes after the loop do not wrap. *)
Lemma loop_body_in_block (block : list Byte) (s : Scan) :
  ptr s < length block ->
  data s <= ptr s ->
  match loop_body block s with
  | Continue s' | Break s' => data s' <= ptr s' <= length block
  end.
Proof.
  intros Hptr Hdata.
  assert (Hshape : match loop_body block s with
                   | Continue s' => data s' = ptr s' \/ data s' = data s
                   | Break s' => ptr s' = ptr s /\ data s' = data s
                                 \/ ptr s' = data s /\ data s' = data s
                   end).
  { unfold loop_body. cbv zeta.
    destruct (Byte.eqb _ _);
      [destruct (_ <? _); [destruct (_ <=? _)%Z |] | destruct (negb _)];
      cbn [ptr data]; auto. }
  destruct (loop_body block s) as [s' | s'] eqn:Hbody.
  - pose proof (loop_body_Continue_advances block s s' Hptr Hbody) as Hadv.
    destruct Hshape as [H | H]; lia.
  - destruct Hshape as [[Hp Hd] | [Hp Hd]]; lia.
Qed.

Lemma while_loop_in_block (block : list Byte) (s s' : Scan) :
  while_loop block s s' ->
  data s <= ptr s <= length block ->
  data s' <= ptr s' <= length block.
Proof.
  induction 1 as [s Hend | s s' Hlt Hbody | s s' s'' Hlt Hbody Hrest IH];
    intros Hinv.
  - exact Hinv.
  - pose proof (loop_body_in_block block s Hlt (proj1 Hinv)) as H.
    rewrite Hbody in H. exact H.
  - apply IH.
    pose proof (loop_body_in_block block s Hlt (proj1 Hinv)) as H.
    rewrite Hbody in H. exact H.
Qed.

(** The fuel [Receive] gives the loop is enough: the scan is the state in
    which the [while] statement is left. *)
Lemma scan_while_loop (r : Receiver) (input : list Byte) :
  while_loop (scanned r input) (mkScan 0 0 (callback r)) (scan r input).
Proof.
  unfold scan. apply loop_while_loop. simpl. lia.
Qed.

Lemma scan_in_block (r : Receiver) (input : list Byte) :
  data (scan r input) <= ptr (scan r input) <= length (scanned r input).
Proof.
  apply (while_loop_in_block _ _ _ (scan_while_loop r input)).
  simpl. lia.
Qed.

Lemma loop_more_fuel (fuel fuel' : nat) (block : list Byte) (s : Scan) :
  length block - ptr s <= fuel -> length block - ptr s <= fuel' ->
  loop fuel block s = loop fuel' block s.
Proof.
  intros H H'.
  apply (while_loop_deterministic block s); apply loop_while_loop; assumption.
Qed.

(** With no text packet delivered since [data] was set, an incomplete
    binary packet leaves [ptr] on its start byte. *)
Lemma incomplete_binary_keeps_ptr (block : list Byte) (s : Scan) :
  deref block (ptr s) = START_BYTE_BINARY_BLOCK ->
  data s = ptr s ->
  (Z.of_nat (length block - (ptr s + BINARY_HEADER_SIZE))
   < big_endian (deref block (ptr s + 1)) (deref block (ptr s + 2))
                (deref block (ptr s + 3)) (deref block (ptr s + 4)))%Z ->
  loop_body block s = Break s.
Proof.
  intros Hmark Hdata Hshort.
  destruct (Nat.lt_ge_cases BINARY_HEADER_SIZE (length block - ptr s))
    as [Hleft | Hleft].
  - rewrite (loop_body_binary block s Hmark Hleft). cbv zeta.
    rewrite (proj2 (Z.leb_gt _ _) Hshort).
    rewrite Hdata. destruct s as [p d c]. simpl in *. subst d. reflexivity.
  - apply loop_body_short_header; assumption.
Qed.

(** ** Text packets *)

(** C5. In the loop body, when the byte at [ptr] is not the start byte of a
    binary block and the ending occurs in the rest of the block, the
    call-back receives [TextPacket] with exactly the bytes from [ptr] up to
    the first occurrence of the ending: the rest of the block is
    [text ++ ENDING_TEXT_BLOCK ++ post], no occurrence of the ending starts
    earlier, [text] contains no ending, and [ptr] moves past the ending, to
    the start of [post].  When the ending does not occur, the loop is left
    with [ptr] (and everything else) unchanged. *)
Theorem TextPacket_up_to_first_ending (block : list Byte) (s : Scan) :
  ptr s < length block ->
  deref block (ptr s) <> START_BYTE_BINARY_BLOCK ->
  (occurs ENDING_TEXT_BLOCK (skipn (ptr s) block) ->
   exists text post,
     skipn (ptr s) block = text ++ ENDING_TEXT_BLOCK ++ post
     /\ (forall pre' post',
            skipn (ptr s) block = pre' ++ ENDING_TEXT_BLOCK ++ post' ->
            length text <= length pre')
     /\ ~ occurs ENDING_TEXT_BLOCK text
     /\ loop_body block s
        = Continue (mkScan (ptr s + length text + length ENDING_TEXT_BLOCK)
                           (data s)
                           (calls s ++ [TextPacket text]))
     /\ skipn (ptr s + length text + length ENDING_TEXT_BLOCK) block = post)
  /\ (~ occurs ENDING_TEXT_BLOCK (skipn (ptr s) block) ->
      loop_body block s = Break s).
Proof.
  intros Hptr Hmark.
  pose proof (loop_body_text block s (Nat.lt_le_incl _ _ Hptr) Hmark) as Hbody.
  cbv zeta in Hbody.
  set (rest := skipn (ptr s) block) in *.
  set (k := search rest ENDING_TEXT_BLOCK) in *.
  pose proof (search_found_iff rest ENDING_TEXT_BLOCK ENDING_TEXT_BLOCK_nonempty)
    as Hfound.
  fold k in Hfound.
  split.
  - intros Hocc.
    apply Hfound in Hocc.
    rewrite (proj2 (Nat.ltb_lt _ _) Hocc) in Hbody.
    assert (Hlen : length (firstn k rest) = k)
      by (apply firstn_length_le; lia).
    exists (firstn k rest), (skipn (k + length ENDING_TEXT_BLOCK) rest).
    split; [exact (search_split rest ENDING_TEXT_BLOCK Hocc) |].
    split.
    { intros pre' post' Hsplit. rewrite Hlen.
      unfold k. rewrite Hsplit.
      apply search_occurrence, ENDING_TEXT_BLOCK_nonempty. }
    split; [exact (search_prefix_clean rest ENDING_TEXT_BLOCK
                     ENDING_TEXT_BLOCK_nonempty) |].
    rewrite Hlen, <- Nat.add_assoc.
    split; [exact Hbody |].
    unfold rest. rewrite skipn_skipn. f_equal. lia.
  - intros Hnone.
    destruct (Nat.ltb_spec k (length rest)) as [Hlt | Hge]; [| exact Hbody].
    exfalso. apply Hnone, Hfound, Hlt.
Qed.

(** At ["ab\r\n\r\n$"] the loop body hands ["ab"] to [TextPacket]. *)
Lemma TextPacket_up_to_first_ending_witness :
  let block := text_ab ++ [x24] in
  let s := mkScan 0 0 [] in
  (occurs ENDING_TEXT_BLOCK (skipn (ptr s) block) ->
   exists text post,
     skipn (ptr s) block = text ++ ENDING_TEXT_BLOCK ++ post
     /\ (forall pre' post',
            skipn (ptr s) block = pre' ++ ENDING_TEXT_BLOCK ++ post' ->
            length text <= length pre')
     /\ ~ occurs ENDING_TEXT_BLOCK text
     /\ loop_body block s
        = Continue (mkScan (ptr s + length text + length ENDING_TEXT_BLOCK)
                           (data s)
                           (calls s ++ [TextPacket text]))
     /\ skipn (ptr s + length text + length ENDING_TEXT_BLOCK) block = post)
  /\ (~ occurs ENDING_TEXT_BLOCK (skipn (ptr s) block) ->
      loop_body block s = Break s).
Proof.
  apply (TextPacket_up_to_first_ending (text_ab ++ [x24]) (mkScan 0 0 [])).
  - simpl. lia.
  - discriminate.
Defined.

(** C10. An ending right at [ptr] is an empty text packet: the byte at
    [ptr] is not the start byte of a binary block, [TextPacket] is invoked
    with no bytes, [ptr] moves past the ending, and the loop goes on from
    there. *)
Theorem TextPacket_empty (block : list Byte) (s : Scan) (fuel : nat) :
  starts_with ENDING_TEXT_BLOCK (skipn (ptr s) block) = true ->
  let s' := mkScan (ptr s + length ENDING_TEXT_BLOCK) (data s)
                   (calls s ++ [TextPacket []]) in
  deref block (ptr s) <> START_BYTE_BINARY_BLOCK
  /\ loop_body block s = Continue s'
  /\ loop (S fuel) block s = loop fuel block s'.
Proof.
  intros Hstart s'.
  pose proof (starts_with_length _ _ Hstart) as Hlen.
  rewrite length_skipn in Hlen. simpl length in Hlen.
  assert (Hptr : ptr s < length block) by lia.
  assert (Hmark : deref block (ptr s) <> START_BYTE_BINARY_BLOCK).
  { rewrite deref_skipn, (starts_with_split _ _ Hstart). discriminate. }
  assert (Hk : search (skipn (ptr s) block) ENDING_TEXT_BLOCK = 0).
  { destruct (skipn (ptr s) block) as [| x rest] eqn:E; [reflexivity |].
    unfold search. rewrite Hstart. reflexivity. }
  assert (Hbody : loop_body block s = Continue s').
  { rewrite (loop_body_text block s (Nat.lt_le_incl _ _ Hptr) Hmark).
    cbv zeta. rewrite Hk, length_skipn.
    rewrite (proj2 (Nat.ltb_lt 0 (length block - ptr s))) by lia.
    reflexivity. }
  split; [exact Hmark |].
  split; [exact Hbody |].
  simpl loop.
  rewrite (proj2 (Nat.ltb_lt _ _) Hptr), Hbody.
  reflexivity.
Qed.

(** Two endings in a row: two empty text packets. *)
Lemma TextPacket_empty_witness :
  let block := ENDING_TEXT_BLOCK ++ ENDING_TEXT_BLOCK in
  let s := mkScan 0 0 [] in
  let s' := mkScan 4 0 [TextPacket []] in
  starts_with ENDING_TEXT_BLOCK (skipn (ptr s) block) = true
  /\ deref block (ptr s) <> START_BYTE_BINARY_BLOCK
  /\ loop_body block s = Continue s'
  /\ loop (S 7) block s = loop 7 block s'
  /\ callback (Receive block fresh) = [TextPacket []; TextPacket []].
Proof.
  split; [reflexivity |].
  split; [| split; [| split]].
  1-3: apply (TextPacket_empty (ENDING_TEXT_BLOCK ++ ENDING_TEXT_BLOCK)
                (mkScan 0 0 []) 7 eq_refl).
  reflexivity.
Defined.

(** ** Binary packets *)

(** C7. The four bytes after the start byte are read as an unsigned 32-bit
    number with the first byte the most significant, and that number is the
    payload size the parser expects: when that many bytes follow the header,
    [BinaryPacket] receives exactly that many bytes and [ptr] moves past
    them; when fewer follow, nothing is delivered. *)
Theorem payloadSize_is_big_endian (block : list Byte) (s : Scan) :
  deref block (ptr s) = START_BYTE_BINARY_BLOCK ->
  BINARY_HEADER_SIZE < length block - ptr s ->
  let b0 := deref block (ptr s + 1) in
  let b1 := deref block (ptr s + 2) in
  let b2 := deref block (ptr s + 3) in
  let b3 := deref block (ptr s + 4) in
  let L := (byte_val b0 * 2 ^ 24 + byte_val b1 * 2 ^ 16
            + byte_val b2 * 2 ^ 8 + byte_val b3)%Z in
  let body := ptr s + BINARY_HEADER_SIZE in
  bswap_32 (BinSize_size b0 b1 b2 b3) = L
  /\ (0 <= L < 2 ^ 32)%Z
  /\ ((L <= Z.of_nat (length block - body))%Z ->
      exists payload,
        payload = range block body (Z.to_nat L)
        /\ Z.of_nat (length payload) = L
        /\ loop_body block s
           = Continue (mkScan (body + length payload) (body + length payload)
                              (calls s ++ [BinaryPacket payload])))
  /\ ((Z.of_nat (length block - body) < L)%Z ->
      loop_body block s = Break (mkScan (data s) (data s) (calls s))).
Proof.
  intros Hmark Hleft b0 b1 b2 b3 L body.
  pose proof (loop_body_binary block s Hmark Hleft) as Hbody.
  cbv zeta in Hbody. fold b0 b1 b2 b3 body in Hbody.
  change (big_endian b0 b1 b2 b3) with L in Hbody.
  pose proof (big_endian_range b0 b1 b2 b3) as Hrange.
  change (big_endian b0 b1 b2 b3) with L in Hrange.
  split; [exact (payloadSize_big_endian b0 b1 b2 b3) |].
  split; [exact Hrange |].
  split.
  - intros Hle.
    rewrite (proj2 (Z.leb_le _ _) Hle) in Hbody.
    assert (Hlen : length (range block body (Z.to_nat L)) = Z.to_nat L)
      by (apply range_length; lia).
    exists (range block body (Z.to_nat L)).
    split; [reflexivity |].
    split; [rewrite Hlen; lia |].
    rewrite Hlen. exact Hbody.
  - intros Hgt.
    rewrite (proj2 (Z.leb_gt _ _) Hgt) in Hbody.
    exact Hbody.
Qed.

(** At [$ 00 00 01 02 ...] the size read is [0x0102 = 258]: more than the
    two bytes that follow, so nothing is delivered. *)
Lemma payloadSize_is_big_endian_witness :
  let block := [x24; x00; x00; x01; x02; x78; x79] in
  bswap_32 (BinSize_size x00 x00 x01 x02) = 258%Z
  /\ loop_body block (mkScan 0 0 []) = Break (mkScan 0 0 []).
Proof.
  pose proof (payloadSize_is_big_endian
                [x24; x00; x00; x01; x02; x78; x79] (mkScan 0 0 [])
                eq_refl) as H.
  cbv zeta in H.
  destruct H as (Hsize & _ & _ & Hshort).
  - vm_compute. lia.
  - split.
    + exact Hsize.
    + apply Hshort. vm_compute. reflexivity.
Defined.

(** The complete packet [$ 00 00 00 02 x y] hands ["xy"] to
    [BinaryPacket]. *)
Example BinaryPacket_xy :
  Receive binary_xy fresh = mkReceiver [] [BinaryPacket [x78; x79]].
Proof. reflexivity. Qed.

(** ** [Receive] *)

(** C9. [Receive] with [size == 0] returns at once: the call-back is not
    invoked and the buffer is not touched. *)
Theorem Receive_nothing (r : Receiver) :
  Receive [] r = r
  /\ callback (Receive [] r) = callback r
  /\ buffer (Receive [] r) = buffer r.
Proof.
  repeat split.
Qed.

(** What [Receive] leaves in the buffer: the scanned block from the final
    [ptr] on. *)
Lemma Receive_buffer (input : list Byte) (r : Receiver) :
  input <> [] ->
  buffer (Receive input r) = skipn (ptr (scan r input)) (buffer r ++ input).
Proof.
  intros Hinput.
  unfold Receive.
  assert (Hlen : (length input =? 0) = false)
    by (destruct input; [contradiction | reflexivity]).
  rewrite Hlen. cbv zeta. cbn [buffer].
  set (s := scan r input).
  unfold scanned.
  destruct (buffer r) as [| b bs] eqn:Hbuf.
  - cbn [empty negb andb app].
    rewrite range_to_end.
    destruct (Nat.ltb_spec 0 (length input - ptr s)) as [Hlt | Hge].
    + reflexivity.
    + symmetry. apply skipn_all2. lia.
  - cbn [empty negb].
    change (empty ((b :: bs) ++ input)) with false.
    cbn [negb andb].
    destruct (Nat.ltb_spec 0 (ptr s)) as [Hlt | Hge].
    + reflexivity.
    + replace (ptr s) with 0 by lia. reflexivity.
Qed.

(** ** The self-test of [main] *)

(** C8. The packet that wraps the 8-byte value [123456789], cut at any
    point [i] between its first and last byte and received as two blocks,
    gives exactly one [BinaryPacket], whose bytes read back as
    [123456789]; nothing stays in the buffer. *)
Theorem split_packet_123456789 (i : nat) :
  1 <= i <= length packed_123456789 - 1 ->
  let r := Receive (skipn i packed_123456789)
                   (Receive (firstn i packed_123456789) fresh) in
  exists payload,
    callback r = [BinaryPacket payload]
    /\ as_long_long payload = 123456789%Z
    /\ top_value_equal (callback r) 123456789 = true
    /\ buffer r = [].
Proof.
  intros Hi r.
  change (length packed_123456789) with 13 in Hi.
  exists (object_bytes 8 123456789).
  destruct i as [| i]; [lia |].
  subst r.
  do 12 (destruct i as [| i]; [clear Hi; repeat split; vm_compute; reflexivity |]).
  lia.
Qed.

(** The cut inside the length field. *)
Lemma split_packet_123456789_witness :
  let r := Receive (skipn 3 packed_123456789)
                   (Receive (firstn 3 packed_123456789) fresh) in
  exists payload,
    callback r = [BinaryPacket payload]
    /\ as_long_long payload = 123456789%Z
    /\ top_value_equal (callback r) 123456789 = true
    /\ buffer r = [].
Proof.
  apply (split_packet_123456789 3).
  change (length packed_123456789) with 13. lia.
Defined.

(** ** A text packet before a binary packet that is not complete yet

    In the binary branch [data] follows [ptr] after each [BinaryPacket];
    the text branch moves [ptr] only.  When a binary packet turns out to be
    incomplete, [ptr = data] therefore goes back to the end of the last
    binary packet (or to the start of the block), before any text packet
    delivered since.  The statements below run the program on such a
    stream: ["ab\r\n\r\n"] followed by [$ 00 00 00 02 x y], received
    without its last byte and then with it. *)

(** C1. Received in one block the stream gives [TextPacket "ab"] and
    [BinaryPacket "xy"]; received as two non-empty blocks, the cut being
    inside the binary payload, it gives [TextPacket "ab"] twice. *)
Theorem Receive_in_two_blocks_repeats_text :
  text_then_binary_head ++ text_then_binary_tail = text_then_binary
  /\ text_then_binary_head <> []
  /\ text_then_binary_tail <> []
  /\ callback (Receive text_then_binary fresh)
     = [TextPacket [x61; x62]; BinaryPacket [x78; x79]]
  /\ callback (Receive_all [text_then_binary_head; text_then_binary_tail] fresh)
     = [TextPacket [x61; x62]; TextPacket [x61; x62]; BinaryPacket [x78; x79]].
Proof.
  repeat split; try discriminate; reflexivity.
Qed.

(** C2. The byte ["a"] occurs once in the stream and is handed to the
    call-back twice. *)
Theorem byte_delivered_twice :
  let log := callback (Receive_all [text_then_binary_head; text_then_binary_tail]
                                   fresh) in
  count x61 (text_then_binary_head ++ text_then_binary_tail) = 1
  /\ count x61 (delivered log) = 2.
Proof.
  split; reflexivity.
Qed.

(** C3. After the text packet, [ptr] is at offset 6, on the start byte of
    the binary packet; the header is there and announces 2 bytes, 1 is
    present; the loop is left with [ptr] at offset 0, not 6. *)
Theorem incomplete_binary_resets_before_text :
  let block := text_then_binary_head in
  let s0 := mkScan 0 0 [] in
  let s1 := mkScan 6 0 [TextPacket [x61; x62]] in
  loop_body block s0 = Continue s1
  /\ deref block (ptr s1) = START_BYTE_BINARY_BLOCK
  /\ BINARY_HEADER_SIZE < length block - ptr s1
  /\ bswap_32 (BinSize_size (deref block 7) (deref block 8)
                            (deref block 9) (deref block 10)) = 2%Z
  /\ length block - (ptr s1 + BINARY_HEADER_SIZE) = 1
  /\ loop_body block s1 = Break (mkScan 0 0 [TextPacket [x61; x62]])
  /\ ptr (scan fresh block) = 0.
Proof.
  repeat split; vm_compute; lia.
Qed.

(** C6. After the first block the text packet has been delivered, and the
    buffer still holds it, ending included, in front of the incomplete
    binary packet. *)
Theorem buffer_keeps_delivered_text :
  let r := Receive text_then_binary_head fresh in
  callback r = [TextPacket [x61; x62]]
  /\ buffer r = text_ab ++ [x24; x00; x00; x00; x02; x78]
  /\ buffer r <> [x24; x00; x00; x00; x02; x78].
Proof.
  repeat split; try reflexivity; discriminate.
Qed.

(** ** A binary packet with an empty payload at the end of the block *)

(** C4. With the start byte at [ptr] and exactly [BINARY_HEADER_SIZE]
    bytes left, the test [left > BINARY_HEADER_SIZE] fails: the length is
    not read and nothing is delivered, although the header announces an
    empty payload.  The same packet followed by more bytes is delivered,
    with an empty payload. *)
Theorem empty_binary_packet_not_delivered :
  length binary_empty = BINARY_HEADER_SIZE
  /\ loop_body binary_empty (mkScan 0 0 []) = Break (mkScan 0 0 [])
  /\ Receive binary_empty fresh = mkReceiver binary_empty []
  /\ Receive (binary_empty ++ text_ab) fresh
     = mkReceiver [] [BinaryPacket []; TextPacket [x61; x62]].
Proof.
  repeat split.
Qed.

(** * Further properties of [Receive] *)

(** ** A call as a whole *)

Lemma scanned_app (r : Receiver) (input : list Byte) :
  scanned r input = buffer r ++ input.
Proof.
  unfold scanned. destruct (buffer r); reflexivity.
Qed.

Lemma Receive_eq (input : list Byte) (r : Receiver) :
  input <> [] ->
  Receive input r
  = mkReceiver (skipn (ptr (scan r input)) (buffer r ++ input))
               (calls (scan r input)).
Proof.
  intros Hinput.
  rewrite <- (Receive_buffer input r Hinput).
  unfold Receive.
  destruct input as [| x input]; [contradiction |].
  reflexivity.
Qed.

(** ** What one iteration does to the loop variables *)

Lemma loop_body_Break_shape (block : list Byte) (s s' : Scan) :
  loop_body block s = Break s' ->
  s' = s \/ s' = mkScan (data s) (data s) (calls s).
Proof.
  unfold loop_body. cbv zeta.
  destruct (Byte.eqb _ _);
    [destruct (_ <? _); [destruct (_ <=? _)%Z |] | destruct (negb _)];
    intros H; try discriminate; injection H as <-; auto.
Qed.

Lemma range_occurs (block : list Byte) (p n : nat) :
  occurs (range block p n) block.
Proof.
  exists (firstn p block), (skipn n (skipn p block)).
  unfold range.
  rewrite firstn_skipn, firstn_skipn. reflexivity.
Qed.

(** An iteration that goes on has delivered one packet: a binary packet,
    after which [data] is [ptr], or a text packet, which leaves [data]. *)
Lemma loop_body_Continue_shape (block : list Byte) (s s' : Scan) :
  ptr s < length block ->
  loop_body block s = Continue s' ->
  (exists bs,
      calls s' = calls s ++ [BinaryPacket bs]
      /\ bs = range block (ptr s + BINARY_HEADER_SIZE) (length bs)
      /\ ptr s' = ptr s + BINARY_HEADER_SIZE + length bs
      /\ data s' = ptr s'
      /\ deref block (ptr s) = START_BYTE_BINARY_BLOCK)
  \/ (exists bs,
      calls s' = calls s ++ [TextPacket bs]
      /\ bs = range block (ptr s) (length bs)
      /\ ptr s' = ptr s + length bs + length ENDING_TEXT_BLOCK
      /\ data s' = data s
      /\ deref block (ptr s) <> START_BYTE_BINARY_BLOCK
      /\ ~ occurs ENDING_TEXT_BLOCK bs).
Proof.
  intros Hptr Hbody.
  destruct (Byte.byte_eq_dec (deref block (ptr s)) START_BYTE_BINARY_BLOCK)
    as [Hmark | Hmark].
  - left.
    destruct (Nat.lt_ge_cases BINARY_HEADER_SIZE (length block - ptr s))
      as [Hleft | Hleft].
    + rewrite (loop_body_binary block s Hmark Hleft) in Hbody.
      cbv zeta in Hbody.
      pose proof (big_endian_range (deref block (ptr s + 1)) (deref block (ptr s + 2))
                                   (deref block (ptr s + 3)) (deref block (ptr s + 4)))
        as Hrange.
      destruct (_ <=? _)%Z eqn:Hle in Hbody; [| discriminate].
      apply Z.leb_le in Hle.
      injection Hbody as <-.
      set (n := Z.to_nat (big_endian (deref block (ptr s + 1)) (deref block (ptr s + 2))
                                     (deref block (ptr s + 3)) (deref block (ptr s + 4)))).
      assert (Hlen : length (range block (ptr s + BINARY_HEADER_SIZE) n) = n)
        by (apply range_length; lia).
      exists (range block (ptr s + BINARY_HEADER_SIZE) n).
      cbn [ptr data calls]. rewrite Hlen.
      repeat split; try reflexivity. exact Hmark.
    + rewrite (loop_body_short_header block s Hmark Hleft) in Hbody.
      discriminate.
  - right.
    rewrite (loop_body_text block s (Nat.lt_le_incl _ _ Hptr) Hmark) in Hbody.
    cbv zeta in Hbody.
    pose proof (search_le (skipn (ptr s) block) ENDING_TEXT_BLOCK) as Hk.
    destruct (_ <? _) in Hbody; [| discriminate].
    injection Hbody as <-.
    set (k := search (skipn (ptr s) block) ENDING_TEXT_BLOCK) in *.
    assert (Hlen : length (firstn k (skipn (ptr s) block)) = k)
      by (apply firstn_length_le; exact Hk).
    exists (firstn k (skipn (ptr s) block)).
    cbn [ptr data calls]. unfold range. rewrite Hlen.
    repeat split; try reflexivity.
    + change (length ENDING_TEXT_BLOCK) with 4. lia.
    + exact Hmark.
    + apply search_prefix_clean, ENDING_TEXT_BLOCK_nonempty.
Qed.

(** ** Runs of the loop *)

Lemma while_loop_steps (block : list Byte) (s s1 : Scan) :
  while_loop block s s1 ->
  exists t,
    steps block s t
    /\ (s1 = t \/ s1 = mkScan (data t) (data t) (calls t)).
Proof.
  induction 1 as [s Hend | s s' Hlt Hbody | s s' s'' Hlt Hbody Hrest IH].
  - exists s. split; [apply steps_here | left; reflexivity].
  - exists s. split; [apply steps_here |].
    apply loop_body_Break_shape in Hbody. exact Hbody.
  - destruct IH as (t & Hsteps & Hstop).
    exists t. split; [| exact Hstop].
    apply steps_next with s'; assumption.
Qed.

Lemma steps_while_loop (block : list Byte) (s t s1 : Scan) :
  steps block s t -> while_loop block t s1 -> while_loop block s s1.
Proof.
  induction 1 as [s | s s' t Hlt Hbody Hsteps IH]; intros Hrest.
  - exact Hrest.
  - apply while_continue with s'; auto.
Qed.

Lemma ends_with_text_cons (p : Packet) (log : list Packet) :
  ends_with_text (p :: log)
  = match log with
    | [] => is_text p
    | _ :: _ => ends_with_text log
    end.
Proof.
  unfold ends_with_text. cbn [rev].
  destruct log as [| q log]; [reflexivity |].
  destruct (rev (q :: log)) as [| x l] eqn:E.
  - apply (f_equal (@length Packet)) in E.
    rewrite length_rev in E. discriminate.
  - reflexivity.
Qed.

(** Everything the later statements need about the packets delivered along
    a run. *)
Lemma steps_facts (block : list Byte) (s t : Scan) :
  steps block s t ->
  ptr s <= length block ->
  exists new,
    calls t = calls s ++ new
    /\ Forall (fun p => occurs (packet_bytes p) block) new
    /\ Forall text_packet_clean new
    /\ ptr t = ptr s + list_sum (map wire_size new)
    /\ ptr t <= length block
    /\ (new = [] -> t = s)
    /\ (ends_with_text new = false ->
        (new = [] -> data s = ptr s) ->
        data t = ptr t).
Proof.
  induction 1 as [s | s s' t Hlt Hbody Hsteps IH]; intros Hin.
  - exists []. rewrite app_nil_r. cbn [map list_sum fold_right].
    repeat split; auto; lia.
  - pose proof (loop_body_Continue_advances block s s' Hlt Hbody) as Hadv.
    destruct IH as (new & Hcalls & Hocc & Hclean & Hlen & Hend & Hnil & Hdata);
      [lia |].
    assert (Hpkt : exists p,
               calls s' = calls s ++ [p]
               /\ occurs (packet_bytes p) block
               /\ text_packet_clean p
               /\ ptr s' = ptr s + wire_size p
               /\ (is_text p = false -> data s' = ptr s')).
    { destruct (loop_body_Continue_shape block s s' Hlt Hbody)
        as [(bs & Hc & Hbs & Hp & Hd & Hm) | (bs & Hc & Hbs & Hp & Hd & Hm & Hcl)].
      - exists (BinaryPacket bs).
        cbn [packet_bytes text_packet_clean is_text wire_size].
        repeat split; auto.
        + rewrite Hbs. apply range_occurs.
        + lia.
      - exists (TextPacket bs).
        cbn [packet_bytes text_packet_clean is_text wire_size].
        repeat split; auto.
        + rewrite Hbs. apply range_occurs.
        + rewrite Hbs. unfold range.
          rewrite deref_skipn in Hm.
          destruct (skipn (ptr s) block) as [| x rest];
            destruct (length bs); cbn [firstn hd nth] in *;
            try discriminate; exact Hm.
        + lia.
        + discriminate. }
    destruct Hpkt as (p & Hc & Hpocc & Hpclean & Hplen & Hpdata).
    exists (p :: new).
    split; [rewrite Hcalls, Hc, <- app_assoc; reflexivity |].
    split; [constructor; assumption |].
    split; [constructor; assumption |].
    split.
    { cbn [map list_sum fold_right]. fold (list_sum (map wire_size new)). lia. }
    split; [exact Hend |].
    split; [discriminate |].
    intros Hlast _.
    rewrite ends_with_text_cons in Hlast.
    destruct new as [| q new].
    + rewrite (Hnil eq_refl). apply Hpdata, Hlast.
    + apply Hdata; [exact Hlast | discriminate].
Qed.

(** The same facts for a whole call. *)
Lemma Receive_facts (input : list Byte) (r : Receiver) :
  exists new,
    callback (Receive input r) = callback r ++ new
    /\ Forall (fun p => occurs (packet_bytes p) (buffer r ++ input)) new
    /\ Forall text_packet_clean new
    /\ list_sum (map wire_size new) <= length (buffer r ++ input)
    /\ (new = [] -> buffer (Receive input r) = buffer r ++ input).
Proof.
  destruct input as [| x input].
  - exists []. rewrite !app_nil_r. cbn. repeat split; auto; lia.
  - rewrite Receive_eq by discriminate. cbn [callback buffer].
    destruct (while_loop_steps _ _ _ (scan_while_loop r (x :: input)))
      as (t & Hsteps & Hstop).
    rewrite scanned_app in Hsteps.
    destruct (steps_facts _ _ _ Hsteps)
      as (new & Hcalls & Hocc & Hclean & Hlen & Hend & Hnil & _);
      [cbn [ptr]; lia |].
    exists new.
    split.
    { destruct Hstop as [-> | ->]; exact Hcalls. }
    cbn [ptr] in Hlen.
    repeat split; auto; [lia |].
    intros Hnew. rewrite (Hnil Hnew) in Hstop.
    destruct Hstop as [-> | ->]; reflexivity.
Qed.

(** ** More bytes after the block, more bytes before it *)

Lemma starts_with_app_r (pat l c : list Byte) :
  length pat <= length l -> starts_with pat (l ++ c) = starts_with pat l.
Proof.
  revert l.
  induction pat as [| p pat IH]; intros l Hlen.
  - reflexivity.
  - destruct l as [| x l]; cbn [length] in Hlen; [lia |].
    cbn [app starts_with]. rewrite IH by lia. reflexivity.
Qed.

(** An occurrence found in [a] is still the first one when bytes are
    appended to [a]. *)
Lemma search_app (a c pat : list Byte) :
  search a pat < length a -> search (a ++ c) pat = search a pat.
Proof.
  induction a as [| x a IH]; intros Hfound.
  - cbn in Hfound. lia.
  - assert (Hpat : length pat <= length (x :: a)).
    { pose proof (starts_with_length _ _ (search_hit _ _ Hfound)) as H.
      rewrite length_skipn in H. lia. }
    cbn [app search].
    change (x :: a ++ c) with ((x :: a) ++ c).
    rewrite (starts_with_app_r pat (x :: a) c Hpat).
    cbn [search] in Hfound.
    destruct (starts_with pat (x :: a)); [reflexivity |].
    rewrite IH; [reflexivity |].
    cbn [length] in Hfound. lia.
Qed.

Lemma deref_app_l (b c : list Byte) (i : nat) :
  i < length b -> deref (b ++ c) i = deref b i.
Proof.
  intros H. unfold deref. apply app_nth1. exact H.
Qed.

Lemma deref_app_r (pre b : list Byte) (i : nat) :
  deref (pre ++ b) (length pre + i) = deref b i.
Proof.
  unfold deref. apply app_nth2_plus.
Qed.

Lemma skipn_app_l (b c : list Byte) (p : nat) :
  p <= length b -> skipn p (b ++ c) = skipn p b ++ c.
Proof.
  intros H. rewrite skipn_app.
  replace (p - length b) with 0 by lia. reflexivity.
Qed.

Lemma skipn_app_r (pre b : list Byte) (p : nat) :
  skipn (length pre + p) (pre ++ b) = skipn p b.
Proof.
  rewrite skipn_app.
  rewrite skipn_all2 by lia.
  replace (length pre + p - length pre) with p by lia.
  reflexivity.
Qed.

Lemma range_app_l (b c : list Byte) (p n : nat) :
  p + n <= length b -> range (b ++ c) p n = range b p n.
Proof.
  intros H. unfold range.
  rewrite skipn_app_l by lia.
  rewrite firstn_app, length_skipn.
  replace (n - (length b - p)) with 0 by lia.
  cbn [firstn]. apply app_nil_r.
Qed.

Lemma range_app_r (pre b : list Byte) (p n : nat) :
  range (pre ++ b) (length pre + p) n = range b p n.
Proof.
  unfold range. rewrite skipn_app_r. reflexivity.
Qed.

Lemma BINARY_HEADER_SIZE_value : BINARY_HEADER_SIZE = 5.
Proof. reflexivity. Qed.

(** An iteration that delivered a packet does the same when the block is
    longer. *)
Lemma loop_body_Continue_app (b c : list Byte) (s s' : Scan) :
  ptr s < length b ->
  loop_body b s = Continue s' ->
  loop_body (b ++ c) s = Continue s'.
Proof.
  intros Hptr Hbody.
  destruct (Byte.byte_eq_dec (deref b (ptr s)) START_BYTE_BINARY_BLOCK)
    as [Hmark | Hmark].
  - destruct (Nat.lt_ge_cases BINARY_HEADER_SIZE (length b - ptr s))
      as [Hleft | Hleft].
    + assert (Hleft' : BINARY_HEADER_SIZE < length (b ++ c) - ptr s)
        by (rewrite length_app; lia).
      pose proof BINARY_HEADER_SIZE_value as Hsize.
      rewrite (loop_body_binary b s Hmark) in Hbody by exact Hleft.
      rewrite (loop_body_binary (b ++ c) s); try exact Hleft';
        [| rewrite deref_app_l by lia; exact Hmark].
      cbv zeta in *.
      rewrite !deref_app_l by lia.
      set (L := big_endian _ _ _ _) in *.
      pose proof (big_endian_range (deref b (ptr s + 1)) (deref b (ptr s + 2))
                                   (deref b (ptr s + 3)) (deref b (ptr s + 4)))
        as Hrange.
      fold L in Hrange.
      destruct (Z.leb_spec L (Z.of_nat (length b - (ptr s + BINARY_HEADER_SIZE))))
        as [Hle | Hgt]; [| discriminate].
      rewrite (proj2 (Z.leb_le _ _)) by (rewrite length_app; lia).
      rewrite range_app_l by lia.
      exact Hbody.
    + rewrite (loop_body_short_header b s Hmark Hleft) in Hbody. discriminate.
  - rewrite (loop_body_text b s (Nat.lt_le_incl _ _ Hptr) Hmark) in Hbody.
    rewrite (loop_body_text (b ++ c) s);
      [| rewrite length_app; lia | rewrite deref_app_l by lia; exact Hmark].
    cbv zeta in *.
    rewrite skipn_app_l by lia.
    set (rest := skipn (ptr s) b) in *.
    destruct (Nat.ltb_spec (search rest ENDING_TEXT_BLOCK) (length rest))
      as [Hlt | Hge]; [| discriminate].
    rewrite (search_app rest c ENDING_TEXT_BLOCK Hlt).
    rewrite (proj2 (Nat.ltb_lt _ _)) by (rewrite length_app; lia).
    rewrite firstn_app.
    replace (search rest ENDING_TEXT_BLOCK - length rest) with 0 by lia.
    cbn [firstn]. rewrite app_nil_r.
    exact Hbody.
Qed.

Lemma steps_app (b c : list Byte) (s t : Scan) :
  steps b s t -> steps (b ++ c) s t.
Proof.
  induction 1 as [s | s s' t Hlt Hbody Hsteps IH].
  - apply steps_here.
  - apply steps_next with s'.
    + rewrite length_app. lia.
    + apply loop_body_Continue_app; assumption.
    + exact IH.
Qed.

(** With [pre] in front of the block, an iteration does the same, [length
    pre] further on. *)
Lemma loop_body_shift (pre b : list Byte) (s : Scan) :
  ptr s <= length b ->
  loop_body (pre ++ b) (shift (length pre) s)
  = shift_flow (length pre) (loop_body b s).
Proof.
  intros Hptr.
  set (k := length pre).
  assert (Hderef : forall i, deref (pre ++ b) (ptr (shift k s) + i)
                             = deref b (ptr s + i)).
  { intros i. cbn [shift ptr]. rewrite <- Nat.add_assoc. apply deref_app_r. }
  assert (Hderef0 : deref (pre ++ b) (ptr (shift k s)) = deref b (ptr s)).
  { rewrite <- (Nat.add_0_r (ptr (shift k s))), Hderef, Nat.add_0_r.
    reflexivity. }
  assert (Hlen : length (pre ++ b) - ptr (shift k s) = length b - ptr s).
  { cbn [shift ptr]. rewrite length_app. fold k. lia. }
  pose proof BINARY_HEADER_SIZE_value as Hsize.
  destruct (Byte.byte_eq_dec (deref b (ptr s)) START_BYTE_BINARY_BLOCK)
    as [Hmark | Hmark].
  - destruct (Nat.lt_ge_cases BINARY_HEADER_SIZE (length b - ptr s))
      as [Hleft | Hleft].
    + rewrite (loop_body_binary b s Hmark Hleft).
      rewrite (loop_body_binary (pre ++ b) (shift k s));
        [| rewrite Hderef0; exact Hmark | rewrite Hlen; exact Hleft].
      cbv zeta. rewrite !Hderef.
      replace (length (pre ++ b) - (ptr (shift k s) + BINARY_HEADER_SIZE))
        with (length b - (ptr s + BINARY_HEADER_SIZE)) by lia.
      destruct (_ <=? _)%Z.
      * unfold shift_flow, shift. cbn [ptr data calls]. subst k.
        rewrite <- (Nat.add_assoc (length pre) (ptr s) BINARY_HEADER_SIZE).
        rewrite range_app_r.
        rewrite !Nat.add_assoc. reflexivity.
      * reflexivity.
    + rewrite (loop_body_short_header b s Hmark Hleft).
      apply loop_body_short_header.
      * rewrite Hderef0. exact Hmark.
      * rewrite Hlen. exact Hleft.
  - rewrite (loop_body_text b s Hptr Hmark).
    rewrite (loop_body_text (pre ++ b) (shift k s));
      [| cbn [shift ptr]; rewrite length_app; fold k; lia
       | rewrite Hderef0; exact Hmark].
    cbv zeta. cbn [shift ptr data calls].
    unfold k. rewrite skipn_app_r. fold k.
    destruct (_ <? _).
    + unfold shift_flow, shift. cbn [ptr data calls].
      rewrite !Nat.add_assoc. reflexivity.
    + reflexivity.
Qed.

Lemma while_loop_shift (pre b : list Byte) (s s1 : Scan) :
  while_loop b s s1 ->
  ptr s <= length b ->
  while_loop (pre ++ b) (shift (length pre) s) (shift (length pre) s1).
Proof.
  induction 1 as [s Hend | s s' Hlt Hbody | s s' s'' Hlt Hbody Hrest IH];
    intros Hin.
  - apply while_exit. cbn [shift ptr]. rewrite length_app. lia.
  - apply while_break.
    + cbn [shift ptr]. rewrite length_app. lia.
    + rewrite loop_body_shift by exact Hin. rewrite Hbody. reflexivity.
  - apply while_continue with (shift (length pre) s').
    + cbn [shift ptr]. rewrite length_app. lia.
    + rewrite loop_body_shift by exact Hin. rewrite Hbody. reflexivity.
    + apply IH.
      pose proof (loop_body_Continue_advances b s s' Hlt Hbody). lia.
Qed.

(** ** Two blocks instead of one *)

(** The scan of a call, as a run of the [while] statement over
    [buffer ++ input]. *)
Lemma scan_run (r : Receiver) (input : list Byte) :
  while_loop (buffer r ++ input) (mkScan 0 0 (callback r)) (scan r input).
Proof.
  rewrite <- scanned_app. apply scan_while_loop.
Qed.

Lemma rewind_to_itself (t : Scan) :
  data t = ptr t -> mkScan (data t) (data t) (calls t) = t.
Proof.
  destruct t as [p d c]. cbn. intros ->. reflexivity.
Qed.

(** A stream received in two blocks instead of one leaves the receiver
    in the same state (same buffer, same invocations of the call-back),
    provided the first block did not end its deliveries with a text
    packet: it delivered nothing, or a binary packet last. *)
Lemma two_blocks_as_one (r : Receiver) (c1 c2 : list Byte)
        (new : list Packet) :
  callback (Receive c1 r) = callback r ++ new ->
  ends_with_text new = false ->
  Receive c2 (Receive c1 r) = Receive (c1 ++ c2) r.
Proof.
  intros Hlog Hlast.
  destruct c1 as [| x1 c1]; [reflexivity |].
  destruct c2 as [| x2 c2]; [rewrite app_nil_r; reflexivity |].
  set (i1 := x1 :: c1) in *. set (i2 := x2 :: c2) in *.
  assert (Hi1 : i1 <> []) by discriminate.
  assert (Hi2 : i2 <> []) by discriminate.
  assert (Hi12 : i1 ++ i2 <> []) by discriminate.
  clearbody i1 i2.
  set (b := buffer r ++ i1).
  pose proof (scan_run r i1) as Hrun1. fold b in Hrun1.
  destruct (while_loop_steps _ _ _ Hrun1) as (t & Hsteps & Hstop).
  destruct (steps_facts _ _ _ Hsteps)
    as (new' & Hcalls & _ & _ & _ & Hend & _ & Hdata);
    [cbn [ptr]; lia |].
  cbn [calls ptr data] in Hcalls, Hdata.
  rewrite (Receive_eq i1 r Hi1) in Hlog. cbn [callback] in Hlog.
  assert (Hcalls1 : calls (scan r i1) = calls t)
    by (destruct Hstop as [-> | ->]; reflexivity).
  rewrite Hcalls1, Hcalls in Hlog.
  apply app_inv_head in Hlog. subst new'.
  assert (Hdt : data t = ptr t) by (apply Hdata; auto).
  assert (Hs1 : scan r i1 = t).
  { destruct Hstop as [-> | ->]; [reflexivity | apply rewind_to_itself, Hdt]. }
  rewrite (Receive_eq i1 r Hi1), Hs1. fold b.
  assert (Ht : shift (ptr t) (mkScan 0 0 (calls t)) = t).
  { unfold shift. cbn [ptr data calls]. rewrite Nat.add_0_r.
    rewrite <- Hdt. apply rewind_to_itself, Hdt. }
  set (q := ptr t) in *.
  set (r1 := mkReceiver (skipn q b) (calls t)).
  pose proof (scan_run r1 i2) as Hrun2.
  cbn [r1 buffer callback] in Hrun2.
  assert (Hq : length (firstn q b) = q) by (apply firstn_length_le; exact Hend).
  pose proof (while_loop_shift (firstn q b) _ _ _ Hrun2) as Hshift.
  rewrite Hq, app_assoc, firstn_skipn in Hshift.
  specialize (Hshift (Nat.le_0_l _)).
  rewrite Ht in Hshift.
  pose proof (steps_while_loop _ _ _ _ (steps_app b i2 _ _ Hsteps) Hshift)
    as Hwhole.
  pose proof (scan_run r (i1 ++ i2)) as Hrun12.
  rewrite app_assoc in Hrun12. fold b in Hrun12.
  pose proof (while_loop_deterministic _ _ _ _ Hrun12 Hwhole) as Hscan.
  rewrite (Receive_eq (i1 ++ i2) r Hi12), Hscan.
  rewrite (Receive_eq i2 r1 Hi2).
  cbn [r1 buffer callback shift ptr calls].
  f_equal.
  rewrite app_assoc. fold b.
  rewrite (Nat.add_comm q), <- skipn_skipn.
  rewrite (skipn_app_l b i2 q Hend).
  reflexivity.
Qed.

(** ** What a call hands to the call-back *)

(** X2. A call only adds invocations to those already made, and every
    packet it delivers is a run of consecutive bytes of the buffer followed
    by the input. *)
Theorem Receive_delivers_pieces_of_the_block (input : list Byte)
        (r : Receiver) :
  exists new,
    callback (Receive input r) = callback r ++ new
    /\ Forall (fun p => occurs (packet_bytes p) (buffer r ++ input)) new.
Proof.
  destruct (Receive_facts input r) as (new & Hlog & Hocc & _).
  exists new. split; assumption.
Qed.

(** X3. No text packet delivered contains the ending, and none begins with
    the start byte of a binary block. *)
Theorem Receive_text_packets_clean (input : list Byte) (r : Receiver)
        (new : list Packet) :
  callback (Receive input r) = callback r ++ new ->
  Forall text_packet_clean new.
Proof.
  intros Hlog.
  destruct (Receive_facts input r) as (new' & Hlog' & _ & Hclean & _).
  rewrite Hlog' in Hlog. apply app_inv_head in Hlog. subst new'.
  exact Hclean.
Qed.

(** Two endings after ["a$"]: the texts ["a$"] and [""]. *)
Lemma Receive_text_packets_clean_witness :
  Forall text_packet_clean [TextPacket [x61; x24]; TextPacket []].
Proof.
  apply (Receive_text_packets_clean
           ([x61; x24] ++ ENDING_TEXT_BLOCK ++ ENDING_TEXT_BLOCK) fresh).
  reflexivity.
Defined.

(** X4. The packets delivered by one call fit in the bytes it scans: the
    bytes they take in the stream, headers and endings included, are at
    most those of the buffer followed by the input. *)
Theorem Receive_packets_fit_in_block (input : list Byte) (r : Receiver)
        (new : list Packet) :
  callback (Receive input r) = callback r ++ new ->
  list_sum (map wire_size new) <= length (buffer r ++ input).
Proof.
  intros Hlog.
  destruct (Receive_facts input r) as (new' & Hlog' & _ & _ & Hlen & _).
  rewrite Hlog' in Hlog. apply app_inv_head in Hlog. subst new'.
  exact Hlen.
Qed.

Lemma Receive_packets_fit_in_block_witness :
  list_sum (map wire_size [TextPacket [x61; x62]; BinaryPacket [x78; x79]])
  <= length (buffer fresh ++ text_then_binary).
Proof.
  apply (Receive_packets_fit_in_block text_then_binary fresh
           [TextPacket [x61; x62]; BinaryPacket [x78; x79]]).
  reflexivity.
Defined.

(** X5. The buffer after a call is what is left of the buffer followed by
    the input when some bytes are dropped from the front: bytes are never
    reordered, altered or dropped from the middle or the end. *)
Theorem Receive_keeps_a_suffix (input : list Byte) (r : Receiver) :
  exists k,
    k <= length (buffer r ++ input)
    /\ buffer (Receive input r) = skipn k (buffer r ++ input).
Proof.
  destruct input as [| x input].
  - exists 0. rewrite app_nil_r. split; [lia | reflexivity].
  - exists (ptr (scan r (x :: input))).
    split.
    + rewrite <- scanned_app. apply scan_in_block.
    + apply Receive_buffer. discriminate.
Qed.

(** ** Streams of binary packets *)

Lemma no_text_ends_with_text (log : list Packet) :
  (forall p, In p log -> is_text p = false) -> ends_with_text log = false.
Proof.
  intros H. unfold ends_with_text.
  destruct (rev log) as [| p l] eqn:E; [reflexivity |].
  apply H, in_rev. rewrite E. left. reflexivity.
Qed.

Lemma Receive_all_log (chunks : list (list Byte)) (r : Receiver) :
  exists new, callback (Receive_all chunks r) = callback r ++ new.
Proof.
  revert r.
  induction chunks as [| c chunks IH]; intros r.
  - exists []. rewrite app_nil_r. reflexivity.
  - destruct (Receive_facts c r) as (n1 & H1 & _).
    destruct (IH (Receive c r)) as (n2 & H2).
    exists (n1 ++ n2).
    change (Receive_all (c :: chunks) r) with (Receive_all chunks (Receive c r)).
    rewrite H2, H1, app_assoc. reflexivity.
Qed.

(** * The encoder *)

(** ** Object representations and the length field *)

Section Representations.

Local Open Scope Z_scope.

Lemma byte_val_of_low_byte (v : Z) :
  byte_val match Byte.of_N (Z.to_N (Z.land v 255)) with
           | Some b => b
           | None => x00
           end
  = v mod 256.
Proof.
  change 255 with (Z.ones 8).
  rewrite Z.land_ones by lia.
  change (2 ^ 8) with 256.
  pose proof (Z.mod_pos_bound v 256 eq_refl) as Hv.
  destruct (Byte.of_N (Z.to_N (v mod 256))) as [b |] eqn:E.
  - apply Byte.to_of_N in E. unfold byte_val. rewrite E. lia.
  - apply Byte.of_N_None_iff in E. lia.
Qed.

Lemma length_object_bytes (size : nat) (value : Z) :
  length (object_bytes size value) = size.
Proof.
  revert value.
  induction size as [| size IH]; intros value; cbn [object_bytes length].
  - reflexivity.
  - rewrite IH. reflexivity.
Qed.

(** The bytes written for a value hold the value modulo [2 ^ (8 * size)]. *)
Lemma object_value_object_bytes (size : nat) (value : Z) :
  object_value (object_bytes size value) = value mod 2 ^ (8 * Z.of_nat size).
Proof.
  revert value.
  induction size as [| size IH]; intros value.
  - cbn [object_bytes object_value].
    change (2 ^ (8 * Z.of_nat 0)) with 1. rewrite Z.mod_1_r. reflexivity.
  - cbn [object_bytes object_value].
    rewrite byte_val_of_low_byte, IH.
    rewrite Z.shiftr_div_pow2 by lia.
    replace (8 * Z.of_nat (S size)) with (8 + 8 * Z.of_nat size) by lia.
    rewrite Z.pow_add_r by lia.
    change (2 ^ 8) with 256.
    rewrite Z.rem_mul_r by lia.
    reflexivity.
Qed.

(** The four bytes of a word, least significant first. *)
Lemma BinSize_bytes_spec (x : Z) :
  exists b0 b1 b2 b3,
    BinSize_bytes x = [b0; b1; b2; b3]
    /\ byte_val b0 = x mod 256
    /\ byte_val b1 = (x / 2 ^ 8) mod 256
    /\ byte_val b2 = (x / 2 ^ 16) mod 256
    /\ byte_val b3 = (x / 2 ^ 24) mod 256.
Proof.
  unfold BinSize_bytes. cbn [map].
  do 4 eexists.
  split; [reflexivity |].
  rewrite !byte_val_of_low_byte.
  rewrite Z.shiftr_0_r, !Z.shiftr_div_pow2 by lia.
  repeat split.
Qed.

End Representations.

(** The length [pack] writes is read back by [Receive]: for a size
    that fits 32 bits, the four bytes stored are the size with the most
    significant byte first, and the receiver computes the size from
    them. *)
Lemma length_field_read_back (n : Z) :
  (0 <= n < 2 ^ 32)%Z ->
  exists b0 b1 b2 b3,
    BinSize_bytes (bswap_32 n) = [b0; b1; b2; b3]
    /\ big_endian b0 b1 b2 b3 = n
    /\ bswap_32 (BinSize_size b0 b1 b2 b3) = n.
Proof.
  intros Hn.
  destruct (BinSize_bytes_spec (bswap_32 n))
    as (b0 & b1 & b2 & b3 & Hbytes & H0 & H1 & H2 & H3).
  exists b0, b1, b2, b3.
  split; [exact Hbytes |].
  assert (Hbig : big_endian b0 b1 b2 b3 = n).
  { unfold big_endian. rewrite H0, H1, H2, H3.
    rewrite bswap_32_value.
    set (a3 := ((n / 2 ^ 24) mod 256)%Z).
    set (a2 := ((n / 2 ^ 16) mod 256)%Z).
    set (a1 := ((n / 2 ^ 8) mod 256)%Z).
    set (a0 := (n mod 256)%Z).
    assert (Hdec : (n = a0 + a1 * 2 ^ 8 + a2 * 2 ^ 16 + a3 * 2 ^ 24)%Z)
      by (subst a0 a1 a2 a3; Z.div_mod_to_equations; lia).
    assert (B0 : (0 <= a0 < 256)%Z) by (apply Z.mod_pos_bound; lia).
    assert (B1 : (0 <= a1 < 256)%Z) by (apply Z.mod_pos_bound; lia).
    assert (B2 : (0 <= a2 < 256)%Z) by (apply Z.mod_pos_bound; lia).
    assert (B3 : (0 <= a3 < 256)%Z) by (apply Z.mod_pos_bound; lia).
    clearbody a0 a1 a2 a3.
    set (y := (a3 + a2 * 2 ^ 8 + a1 * 2 ^ 16 + a0 * 2 ^ 24)%Z).
    assert (Y0 : (y mod 256 = a3)%Z)
      by (subst y; Z.div_mod_to_equations; lia).
    assert (Y1 : ((y / 2 ^ 8) mod 256 = a2)%Z)
      by (subst y; Z.div_mod_to_equations; lia).
    assert (Y2 : ((y / 2 ^ 16) mod 256 = a1)%Z)
      by (subst y; Z.div_mod_to_equations; lia).
    assert (Y3 : ((y / 2 ^ 24) mod 256 = a0)%Z)
      by (subst y; Z.div_mod_to_equations; lia).
    rewrite Y0, Y1, Y2, Y3. lia. }
  split; [exact Hbig |].
  rewrite payloadSize_big_endian. exact Hbig.
Qed.

(** A [long long] written by [pack] and read back the way
    [isTopValueEqual] does is the same number, negative ones included. *)
Lemma as_long_long_object_bytes (value : Z) :
  (- 2 ^ 63 <= value < 2 ^ 63)%Z ->
  as_long_long (object_bytes 8 value) = value.
Proof.
  intros Hrange.
  unfold as_long_long.
  rewrite firstn_all2 by (rewrite length_object_bytes; lia).
  rewrite object_value_object_bytes.
  change (2 ^ (8 * Z.of_nat 8))%Z with (2 ^ 64)%Z.
  destruct (Z.ltb_spec (value mod 2 ^ 64) (2 ^ 63)) as [Hlt | Hge];
    Z.div_mod_to_equations; lia.
Qed.

(** ** [pack] on a tuple *)

Lemma skipn_repeat (x : Byte) (n m : nat) :
  skipn n (repeat x m) = repeat x (m - n).
Proof.
  revert m.
  induction n as [| n IH]; intros m.
  - rewrite Nat.sub_0_r. reflexivity.
  - destruct m as [| m]; [reflexivity |].
    cbn [repeat skipn Nat.sub]. apply IH.
Qed.

(** A write right after the part written so far, into the zeroes that
    follow it. *)
Lemma store_after (w bytes : list Byte) (pos k : nat) :
  pos = length w ->
  store (w ++ repeat x00 k) pos bytes
  = (w ++ bytes) ++ repeat x00 (k - length bytes).
Proof.
  intros ->. unfold store.
  rewrite firstn_app, firstn_all, Nat.sub_diag. cbn [firstn].
  rewrite app_nil_r, skipn_app_r, skipn_repeat.
  apply app_assoc.
Qed.

Lemma length_BinSize_bytes (x : Z) : length (BinSize_bytes x) = 4.
Proof. reflexivity. Qed.

Lemma length_encode (v : Value) :
  length (encode v)
  = match v with
    | Pod size _ => BINARY_HEADER_SIZE + size
    | Text chars => length chars + length ENDING_TEXT_BLOCK
    end.
Proof.
  destruct v as [size value | chars]; cbn [encode].
  - unfold pack_pod. cbn [length].
    rewrite length_app, length_BinSize_bytes, length_object_bytes.
    reflexivity.
  - unfold pack_text. apply length_app.
Qed.

Lemma sizeBlock_length (values : list Value) :
  sizeBlock values = length (flat_map encode values).
Proof.
  unfold sizeBlock.
  enough (H : forall acc,
             fold_left (fun size v =>
                          match v with
                          | Text chars =>
                              size + (length chars + length ENDING_TEXT_BLOCK)
                          | Pod n _ => size + (BINARY_HEADER_SIZE + n)
                          end) values acc
             = acc + length (flat_map encode values))
    by apply (H 0).
  induction values as [| v values IH]; intros acc.
  - cbn. lia.
  - cbn [fold_left flat_map]. rewrite IH, length_app, length_encode.
    destruct v; lia.
Qed.

(** One element packed right after the part written so far. *)
Lemma pack_value_after (v : Value) (w : list Byte) (k : nat) :
  length (encode v) <= k ->
  pack_value v (length w) (w ++ repeat x00 k)
  = ((w ++ encode v) ++ repeat x00 (k - length (encode v)),
     length w + length (encode v)).
Proof.
  intros Hroom.
  rewrite length_encode in *.
  destruct v as [size value | chars]; cbn [pack_value encode].
  - unfold pack_T, pack_pod.
    unfold BINARY_HEADER_SIZE, sizeof_START_BYTE_BINARY_BLOCK, sizeof_BinSize
      in *.
    rewrite (store_after w) by reflexivity.
    rewrite store_after by (rewrite length_app; reflexivity).
    rewrite store_after
      by (rewrite !length_app, length_BinSize_bytes; cbn [length]; lia).
    rewrite length_BinSize_bytes, length_object_bytes. cbn [length].
    f_equal; [| lia].
    replace (k - 1 - 4 - size) with (k - (1 + 4 + size)) by lia.
    f_equal. rewrite <- !app_assoc. reflexivity.
  - unfold pack_chars, pack_text.
    rewrite (store_after w) by reflexivity.
    rewrite store_after by (rewrite length_app; reflexivity).
    f_equal; [| lia].
    replace (k - length chars - length ENDING_TEXT_BLOCK)
      with (k - (length chars + length ENDING_TEXT_BLOCK)) by lia.
    f_equal. rewrite <- !app_assoc. reflexivity.
Qed.

Lemma pack_fold (values : list Value) (w : list Byte) (k : nat) :
  fold_left (fun acc v => pack_value v (snd acc) (fst acc)) values
            (w ++ repeat x00 (length (flat_map encode values) + k), length w)
  = ((w ++ flat_map encode values) ++ repeat x00 k,
     length w + length (flat_map encode values)).
Proof.
  revert w.
  induction values as [| v values IH]; intros w.
  - cbn [fold_left flat_map length]. rewrite app_nil_r, Nat.add_0_r.
    reflexivity.
  - cbn [fold_left flat_map fst snd].
    rewrite length_app.
    rewrite pack_value_after by lia.
    replace (length (encode v) + length (flat_map encode values) + k
             - length (encode v))
      with (length (flat_map encode values) + k) by lia.
    rewrite <- (length_app w (encode v)).
    rewrite IH.
    rewrite !length_app, <- !app_assoc, Nat.add_assoc.
    reflexivity.
Qed.

(** [pack] on a tuple returns the encodings of the elements one after
    the other, in the order of the tuple: the size computed beforehand is
    the number of bytes written, so that no byte of the block stays
    unwritten and none is written past its end. *)
Lemma pack_flat_map (values : list Value) :
  pack values = flat_map encode values
  /\ length (pack values) = sizeBlock values
  /\ snd (fold_left (fun acc v => pack_value v (snd acc) (fst acc)) values
                    (repeat x00 (sizeBlock values), 0))
     = sizeBlock values.
Proof.
  assert (Hfold := pack_fold values [] 0).
  cbn [app length] in Hfold.
  rewrite Nat.add_0_r, <- sizeBlock_length, app_nil_r in Hfold.
  unfold pack. cbv zeta.
  split; [exact (f_equal fst Hfold) |].
  split; [| exact (f_equal snd Hfold)].
  transitivity (length (flat_map encode values)).
  - exact (f_equal (fun acc => length (fst acc)) Hfold).
  - symmetry. apply sizeBlock_length.
Qed.

(** * From [pack] to [Receive] *)

Lemma occurs_firstn (pat l a p : list Byte) (n : nat) :
  l = a ++ pat ++ p -> length a + length pat <= n ->
  occurs pat (firstn n l).
Proof.
  intros -> Hn.
  exists a, (firstn (n - length a - length pat) p).
  rewrite firstn_app.
  rewrite (firstn_all2 a) by lia.
  rewrite firstn_app.
  rewrite (firstn_all2 pat) by lia.
  reflexivity.
Qed.

(** In a clean text followed by the ending, the first ending is the one
    that was appended, whatever comes next. *)
Lemma search_clean_text (chars rest : list Byte) :
  ~ occurs ENDING_TEXT_BLOCK (chars ++ firstn 3 ENDING_TEXT_BLOCK) ->
  search ((chars ++ ENDING_TEXT_BLOCK) ++ rest) ENDING_TEXT_BLOCK
  = length chars.
Proof.
  intros Hclean.
  rewrite <- app_assoc.
  set (hay := chars ++ ENDING_TEXT_BLOCK ++ rest).
  pose proof (search_occurrence chars ENDING_TEXT_BLOCK rest
                ENDING_TEXT_BLOCK_nonempty) as Hle.
  fold hay in Hle.
  destruct (Nat.eq_dec (search hay ENDING_TEXT_BLOCK) (length chars))
    as [Heq | Hne]; [exact Heq |].
  exfalso. apply Hclean.
  assert (Hlen : length hay = length chars + (4 + length rest))
    by (unfold hay; rewrite !length_app; reflexivity).
  assert (Hfound : search hay ENDING_TEXT_BLOCK < length hay) by lia.
  pose proof (search_split hay ENDING_TEXT_BLOCK Hfound) as Hsplit.
  assert (Hcut : firstn (length chars + 3) hay
                 = chars ++ firstn 3 ENDING_TEXT_BLOCK).
  { unfold hay. rewrite firstn_app, firstn_all2 by lia.
    replace (length chars + 3 - length chars) with 3 by lia.
    reflexivity. }
  rewrite <- Hcut.
  apply (occurs_firstn _ _ _ _ _ Hsplit).
  rewrite firstn_length_le by lia.
  cbn [length ENDING_TEXT_BLOCK]. lia.
Qed.

(** On the encoding of a receivable element the loop body delivers the
    packet it is meant to become and moves [ptr] to the next element. *)
Lemma loop_body_encode (v : Value) (pre rest : list Byte) (d : nat)
      (log : list Packet) :
  receivable v ->
  exists d',
    loop_body (pre ++ encode v ++ rest) (mkScan (length pre) d log)
    = Continue (mkScan (length pre + length (encode v)) d'
                       (log ++ [packet_of v])).
Proof.
  intros Hv.
  set (s := mkScan (length pre) d log).
  destruct v as [size value | chars]; cbn [receivable encode packet_of] in *.
  - destruct Hv as [Hpos Hfits].
    destruct (length_field_read_back (Z.of_nat size))
      as (b0 & b1 & b2 & b3 & Hbytes & Hbig & _); [lia |].
    pose proof (length_object_bytes size value) as Hobj.
    unfold pack_pod. rewrite Hbytes.
    set (obj := object_bytes size value) in *.
    set (block := pre ++ (START_BYTE_BINARY_BLOCK :: [b0; b1; b2; b3] ++ obj)
                      ++ rest).
    assert (Hat : forall i, deref block (ptr s + i)
                            = deref ((START_BYTE_BINARY_BLOCK
                                        :: [b0; b1; b2; b3] ++ obj) ++ rest) i)
      by (intros i; apply deref_app_r).
    assert (Hmark : deref block (ptr s) = START_BYTE_BINARY_BLOCK).
    { rewrite <- (Nat.add_0_r (ptr s)), Hat. reflexivity. }
    assert (Hlen : length block = length pre + (5 + size + length rest)).
    { unfold block. rewrite !length_app. cbn [length app].
      rewrite Hobj. lia. }
    pose proof BINARY_HEADER_SIZE_value as Hsize.
    assert (Hleft : BINARY_HEADER_SIZE < length block - ptr s)
      by (cbn [s ptr]; lia).
    exists (length pre + (5 + size)).
    rewrite (loop_body_binary block s Hmark Hleft).
    cbv zeta. rewrite !Hat.
    change (big_endian _ _ _ _) with (big_endian b0 b1 b2 b3).
    rewrite Hbig.
    rewrite (proj2 (Z.leb_le _ _)) by (cbn [s ptr]; lia).
    rewrite Nat2Z.id.
    cbn [s ptr calls length app]. rewrite Hobj, Hsize.
    assert (Hrange : range block (length pre + 5) size = obj).
    { unfold block. rewrite range_app_r. unfold range.
      cbn [app skipn]. rewrite firstn_app, Hobj, Nat.sub_diag.
      cbn [firstn]. rewrite app_nil_r.
      apply firstn_all2. lia. }
    rewrite Hrange.
    replace (length pre + 5 + size) with (length pre + (5 + size)) by lia.
    reflexivity.
  - destruct Hv as [Hhead Hclean].
    unfold pack_text.
    set (block := pre ++ (chars ++ ENDING_TEXT_BLOCK) ++ rest).
    assert (Hrest : skipn (ptr s) block
                    = (chars ++ ENDING_TEXT_BLOCK) ++ rest).
    { unfold block. cbn [s ptr].
      rewrite <- (Nat.add_0_r (length pre)). apply skipn_app_r. }
    assert (Hmark : deref block (ptr s) <> START_BYTE_BINARY_BLOCK).
    { rewrite deref_skipn, Hrest.
      destruct chars as [| x chars]; [discriminate | exact Hhead]. }
    assert (Hin : ptr s <= length block).
    { unfold block. rewrite length_app. cbn [s ptr]. lia. }
    exists d.
    rewrite (loop_body_text block s Hin Hmark).
    cbv zeta. rewrite Hrest, (search_clean_text chars rest Hclean).
    rewrite (proj2 (Nat.ltb_lt _ _))
      by (rewrite !length_app; cbn [length ENDING_TEXT_BLOCK]; lia).
    rewrite <- app_assoc, firstn_app, firstn_all, Nat.sub_diag.
    cbn [firstn]. rewrite app_nil_r.
    cbn [s ptr data calls]. rewrite length_app.
    reflexivity.
Qed.

(** The whole stream of packed elements is scanned to its end. *)
Lemma while_loop_stream (values : list Value) :
  Forall receivable values ->
  forall (pre : list Byte) (d : nat) (log : list Packet),
  exists d',
    while_loop (pre ++ flat_map encode values) (mkScan (length pre) d log)
               (mkScan (length (pre ++ flat_map encode values)) d'
                       (log ++ map packet_of values)).
Proof.
  induction 1 as [| v values Hv Hvalues IH]; intros pre d log.
  - exists d. cbn [flat_map map]. rewrite !app_nil_r.
    apply while_exit. cbn [ptr]. lia.
  - cbn [flat_map map].
    destruct (loop_body_encode v pre (flat_map encode values) d log Hv)
      as (d1 & Hbody).
    destruct (IH (pre ++ encode v) d1 (log ++ [packet_of v])) as (d' & Hrun).
    exists d'.
    rewrite <- app_assoc in Hrun. cbn [app] in Hrun.
    rewrite length_app in Hrun at 1.
    rewrite <- app_assoc in Hrun.
    apply while_continue
      with (s' := mkScan (length pre + length (encode v)) d1
                         (log ++ [packet_of v])).
    + cbn [ptr]. rewrite !length_app.
      pose proof (length_encode v) as Hlen.
      pose proof BINARY_HEADER_SIZE_value.
      destruct v; cbn [length ENDING_TEXT_BLOCK] in Hlen; lia.
    + exact Hbody.
    + exact Hrun.
Qed.

(** What [pack] writes, [Receive] gives back: a tuple of receivable
    elements, packed and received as one block by a receiver whose buffer
    is empty, is delivered element by element, in order, each as the packet
    it is meant to become, and nothing stays in the buffer. *)
Lemma Receive_packed_values (values : list Value) (log : list Packet) :
  Forall receivable values ->
  Receive (pack values) (mkReceiver [] log)
  = mkReceiver [] (log ++ map packet_of values).
Proof.
  intros Hvalues.
  rewrite (proj1 (pack_flat_map values)).
  destruct (while_loop_stream values Hvalues [] 0 log) as (d' & Hrun).
  cbn [app length] in Hrun.
  destruct (flat_map encode values) as [| x stream] eqn:Hstream.
  - destruct values as [| v values]; [cbn; rewrite app_nil_r; reflexivity |].
    exfalso.
    apply (f_equal (@length Byte)) in Hstream.
    cbn [flat_map length] in Hstream.
    rewrite length_app, length_encode in Hstream.
    pose proof BINARY_HEADER_SIZE_value.
    destruct v; cbn [length ENDING_TEXT_BLOCK] in Hstream; lia.
  - rewrite Receive_eq by discriminate.
    pose proof (scan_run (mkReceiver [] log) (x :: stream)) as Hscan.
    cbn [buffer callback app] in *.
    rewrite (while_loop_deterministic _ _ _ _ Hscan Hrun).
    cbn [ptr calls]. rewrite skipn_all. reflexivity.
Qed.

(** [search] decides whether the ending occurs. *)
Lemma search_none (l : list Byte) :
  search l ENDING_TEXT_BLOCK = length l -> ~ occurs ENDING_TEXT_BLOCK l.
Proof.
  intros Hnone Hocc.
  apply (search_found_iff l ENDING_TEXT_BLOCK ENDING_TEXT_BLOCK_nonempty)
    in Hocc.
  lia.
Qed.

(** ** Any number of blocks *)

(** The packets delivered before some top of the loop are the first of
    those the whole run delivers. *)
Lemma steps_prefix_of_run (block : list Byte) (s t s1 : Scan) :
  steps block s t ->
  ptr s <= length block ->
  while_loop block s s1 ->
  exists more, calls s1 = calls t ++ more.
Proof.
  induction 1 as [s | s s' t Hlt Hbody Hsteps IH]; intros Hin Hrun.
  - destruct (while_loop_steps _ _ _ Hrun) as (t' & Hsteps' & Hstop).
    destruct (steps_facts _ _ _ Hsteps' Hin) as (new & Hcalls & _).
    exists new. destruct Hstop as [-> | ->]; exact Hcalls.
  - inversion Hrun as [? Hend | ? ? Hlt' Hbreak | ? s'0 ? Hlt' Hcont Hrest];
      subst.
    + lia.
    + congruence.
    + assert (s'0 = s') by congruence. subst s'0.
      apply IH; [| exact Hrest].
      pose proof (loop_body_Continue_advances _ _ _ Hlt Hbody). lia.
Qed.

(** What a call delivers on the first part of a stream is the beginning of
    what it delivers on the whole stream. *)
Lemma Receive_prefix_log (r : Receiver) (done rest : list Byte)
      (new1 new : list Packet) :
  callback (Receive done r) = callback r ++ new1 ->
  callback (Receive (done ++ rest) r) = callback r ++ new ->
  exists more, new = new1 ++ more.
Proof.
  intros H1 H.
  destruct done as [| x done].
  - cbn in H1. rewrite <- (app_nil_r (callback r)) in H1 at 1.
    apply app_inv_head in H1. subst new1. exists new. reflexivity.
  - rewrite Receive_eq in H1 by discriminate.
    rewrite Receive_eq in H by discriminate.
    cbn [callback] in *.
    destruct (while_loop_steps _ _ _ (scan_run r (x :: done)))
      as (t & Hsteps & Hstop).
    assert (Hcalls : calls (scan r (x :: done)) = calls t)
      by (destruct Hstop as [-> | ->]; reflexivity).
    pose proof (scan_run r ((x :: done) ++ rest)) as Hrun.
    rewrite app_assoc in Hrun.
    destruct (steps_prefix_of_run _ _ _ _ (steps_app _ rest _ _ Hsteps)
                (Nat.le_0_l _) Hrun) as (more & Hmore).
    exists more.
    rewrite H, <- Hcalls, H1, <- app_assoc in Hmore.
    apply app_inv_head in Hmore. exact Hmore.
Qed.

Lemma Receive_all_from_prefix (chunks : list (list Byte)) (r : Receiver)
      (done : list Byte) (new : list Packet) :
  callback (Receive (done ++ concat chunks) r) = callback r ++ new ->
  (forall p, In p new -> is_text p = false) ->
  Receive_all chunks (Receive done r) = Receive (done ++ concat chunks) r.
Proof.
  revert done.
  induction chunks as [| c chunks IH]; intros done Hlog Hbin.
  - cbn [concat]. rewrite app_nil_r. reflexivity.
  - change (Receive_all (c :: chunks) (Receive done r))
      with (Receive_all chunks (Receive c (Receive done r))).
    cbn [concat] in *.
    destruct (Receive_facts done r) as (new1 & Hlog1 & _).
    destruct (Receive_prefix_log r done (c ++ concat chunks) new1 new Hlog1 Hlog)
      as (more & ->).
    rewrite (two_blocks_as_one r done c new1 Hlog1).
    + rewrite (app_assoc done c (concat chunks)) in Hlog |- *.
      apply IH; assumption.
    + apply no_text_ends_with_text.
      intros p Hp. apply Hbin, in_or_app. left. exact Hp.
Qed.

(** A tuple of PODs, packed, is delivered value by value whatever
    the blocks in which its bytes arrive. *)
Lemma packed_pods_in_blocks (values : list Value)
        (chunks : list (list Byte)) (log : list Packet) :
  Forall receivable values ->
  (forall v, In v values -> is_pod v = true) ->
  concat chunks = pack values ->
  Receive_all chunks (mkReceiver [] log)
  = mkReceiver [] (log ++ map packet_of values).
Proof.
  intros Hvalues Hpods Hchunks.
  rewrite <- (Receive_packed_values values log Hvalues), <- Hchunks.
  apply (Receive_all_from_prefix chunks (mkReceiver [] log) []
           (map packet_of values)).
  - cbn [app].
    rewrite Hchunks, (Receive_packed_values values log Hvalues). reflexivity.
  - intros p Hp.
    apply in_map_iff in Hp. destruct Hp as (v & <- & Hv).
    specialize (Hpods v Hv).
    destruct v; [reflexivity | discriminate].
Qed.

Lemma wire_size_packet_of (v : Value) :
  wire_size (packet_of v) = length (encode v).
Proof.
  rewrite length_encode.
  destruct v; cbn [packet_of wire_size]; [| reflexivity].
  rewrite length_object_bytes. reflexivity.
Qed.

Lemma Receive_encode (v : Value) (log : list Packet) :
  receivable v ->
  Receive (encode v) (mkReceiver [] log)
  = mkReceiver [] (log ++ [packet_of v]).
Proof.
  intros Hv.
  pose proof (Receive_packed_values [v] log (Forall_cons v Hv (Forall_nil _))) as H.
  rewrite (proj1 (pack_flat_map [v])) in H.
  cbn [flat_map map] in H. rewrite app_nil_r in H. exact H.
Qed.

(** An element of which only a part has arrived waits: nothing is
    delivered and the whole part is kept in the buffer. *)
Lemma incomplete_element_kept (v : Value) (i : nat)
        (log : list Packet) :
  receivable v ->
  i < length (encode v) ->
  Receive (firstn i (encode v)) (mkReceiver [] log)
  = mkReceiver (firstn i (encode v)) log.
Proof.
  intros Hv Hcut.
  destruct (Receive_facts (firstn i (encode v)) (mkReceiver [] log))
    as (new1 & Hlog1 & _ & _ & Hfit & Hkeep).
  assert (Hlog : callback (Receive (firstn i (encode v) ++ skipn i (encode v))
                                   (mkReceiver [] log))
                 = callback (mkReceiver [] log) ++ [packet_of v])
    by (rewrite firstn_skipn, (Receive_encode v log Hv); reflexivity).
  destruct (Receive_prefix_log _ _ _ new1 _ Hlog1 Hlog) as (more & Hmore).
  assert (Hnone : new1 = []).
  { destruct new1 as [| p new1]; [reflexivity |].
    exfalso.
    injection Hmore as <- _.
    cbn [map list_sum fold_right buffer app] in Hfit.
    rewrite wire_size_packet_of, firstn_length_le in Hfit by lia.
    lia. }
  subst new1.
  specialize (Hkeep eq_refl).
  cbn [buffer callback app] in Hlog1, Hkeep. rewrite app_nil_r in Hlog1.
  destruct (Receive (firstn i (encode v)) (mkReceiver [] log)) as [buf cb].
  cbn [buffer callback] in *. subst. reflexivity.
Qed.

(** One packed element, POD or text, cut at any place and received
    as two blocks, is delivered exactly once, whole, and nothing stays in
    the buffer. *)
Lemma element_cut_anywhere (v : Value) (i : nat)
        (log : list Packet) :
  receivable v ->
  Receive (skipn i (encode v)) (Receive (firstn i (encode v))
                                        (mkReceiver [] log))
  = mkReceiver [] (log ++ [packet_of v]).
Proof.
  intros Hv.
  destruct (Nat.le_gt_cases (length (encode v)) i) as [Hall | Hcut].
  - rewrite skipn_all2, firstn_all2 by exact Hall.
    apply Receive_encode, Hv.
  - rewrite (two_blocks_as_one (mkReceiver [] log) _ _ []).
    + rewrite firstn_skipn. apply Receive_encode, Hv.
    + rewrite (incomplete_element_kept v i log Hv Hcut).
      cbn [callback]. rewrite app_nil_r. reflexivity.
    + reflexivity.
Qed.

(** * The receiver and the encoder: statements *)

(** ** Blocks *)

(** X1. A stream received in two blocks instead of one leaves the receiver
    in the same state (same buffer, same invocations of the call-back),
    provided the first block did not end its deliveries with a text
    packet: it delivered nothing, or a binary packet last. *)
Theorem Receive_in_two_blocks (r : Receiver) (c1 c2 : list Byte)
        (new : list Packet) :
  callback (Receive c1 r) = callback r ++ new ->
  ends_with_text new = false ->
  Receive c2 (Receive c1 r) = Receive (c1 ++ c2) r.
Proof.
  exact (two_blocks_as_one r c1 c2 new).
Qed.

(** After a binary packet and one byte of a text, the rest of the text
    arrives: the same as the whole in one block. *)
Lemma Receive_in_two_blocks_witness :
  Receive (x62 :: ENDING_TEXT_BLOCK) (Receive (binary_xy ++ [x61]) fresh)
  = Receive ((binary_xy ++ [x61]) ++ x62 :: ENDING_TEXT_BLOCK) fresh.
Proof.
  apply (Receive_in_two_blocks fresh (binary_xy ++ [x61])
           (x62 :: ENDING_TEXT_BLOCK) [BinaryPacket [x78; x79]]).
  - reflexivity.
  - reflexivity.
Defined.

(** X6. A stream on which [Receive] delivers binary packets only can be
    cut into blocks in any way, empty blocks included: received block by
    block it leaves the receiver in the state the whole stream leaves it
    in when received at once. *)
Theorem Receive_all_binary_stream (chunks : list (list Byte)) (r : Receiver)
        (new : list Packet) :
  callback (Receive (concat chunks) r) = callback r ++ new ->
  (forall p, In p new -> is_text p = false) ->
  Receive_all chunks r = Receive (concat chunks) r.
Proof.
  intros Hlog Hbin.
  apply (Receive_all_from_prefix chunks r [] new); assumption.
Qed.

(** Two binary packets, then a byte of something else; in four blocks. *)
Lemma Receive_all_binary_stream_witness :
  let stream := packed_123456789 ++ binary_xy ++ [x61] in
  let chunks := [firstn 3 stream; firstn 15 (skipn 3 stream); [];
                 skipn 18 stream] in
  Receive_all chunks fresh = Receive (concat chunks) fresh.
Proof.
  intros stream chunks.
  apply (Receive_all_binary_stream chunks fresh
           [BinaryPacket (object_bytes 8 123456789); BinaryPacket [x78; x79]]).
  - reflexivity.
  - intros p [<- | [<- | []]]; reflexivity.
Defined.

(** X15. The bytes waiting in the buffer count as if they had arrived in
    front of the new block: a call on a receiver with a buffer does what
    the call on the buffer followed by the block does to a receiver with
    an empty buffer and the same call-back. *)
Theorem Receive_buffer_as_input (input : list Byte) (r : Receiver) :
  input <> [] ->
  Receive input r
  = Receive (buffer r ++ input) (mkReceiver [] (callback r)).
Proof.
  intros Hinput.
  assert (Hall : buffer r ++ input <> []).
  { intros H. apply app_eq_nil in H. destruct H as [_ H]. contradiction. }
  rewrite (Receive_eq input r Hinput), (Receive_eq _ _ Hall).
  assert (Hscan : scan (mkReceiver [] (callback r)) (buffer r ++ input)
                  = scan r input).
  { unfold scan. rewrite !scanned_app. reflexivity. }
  rewrite Hscan. reflexivity.
Qed.

Lemma Receive_buffer_as_input_witness :
  let r := Receive (firstn 3 packed_123456789) fresh in
  Receive (skipn 3 packed_123456789) r
  = Receive (buffer r ++ skipn 3 packed_123456789)
            (mkReceiver [] (callback r)).
Proof.
  intros r.
  apply (Receive_buffer_as_input (skipn 3 packed_123456789) r).
  discriminate.
Defined.

(** ** The encoder *)

(** X7. The length [pack] writes is read back by [Receive]: for a size
    that fits 32 bits, the four bytes stored are the size with the most
    significant byte first, and the receiver computes the size from
    them. *)
Theorem length_field_round_trip (n : Z) :
  (0 <= n < 2 ^ 32)%Z ->
  exists b0 b1 b2 b3,
    BinSize_bytes (bswap_32 n) = [b0; b1; b2; b3]
    /\ big_endian b0 b1 b2 b3 = n
    /\ bswap_32 (BinSize_size b0 b1 b2 b3) = n.
Proof.
  exact (length_field_read_back n).
Qed.

(** The size of a [long long]. *)
Lemma length_field_round_trip_witness :
  exists b0 b1 b2 b3,
    BinSize_bytes (bswap_32 8) = [b0; b1; b2; b3]
    /\ big_endian b0 b1 b2 b3 = 8%Z
    /\ bswap_32 (BinSize_size b0 b1 b2 b3) = 8%Z.
Proof.
  apply (length_field_round_trip 8). lia.
Defined.

(** X8. A [long long] written by [pack] and read back the way
    [isTopValueEqual] does is the same number, negative ones included. *)
Theorem long_long_round_trip (value : Z) :
  (- 2 ^ 63 <= value < 2 ^ 63)%Z ->
  as_long_long (object_bytes 8 value) = value.
Proof.
  exact (as_long_long_object_bytes value).
Qed.

Lemma long_long_round_trip_witness :
  as_long_long (object_bytes 8 (-123456789)) = (-123456789)%Z.
Proof.
  apply (long_long_round_trip (-123456789)). lia.
Defined.

(** X9. [pack] on a tuple returns the encodings of the elements one after
    the other, in the order of the tuple: the size computed beforehand is
    the number of bytes written, so that no byte of the block stays
    unwritten and none is written past its end. *)
Theorem pack_is_concatenation (values : list Value) :
  pack values = flat_map encode values
  /\ length (pack values) = sizeBlock values
  /\ snd (fold_left (fun acc v => pack_value v (snd acc) (fst acc)) values
                    (repeat x00 (sizeBlock values), 0))
     = sizeBlock values.
Proof.
  exact (pack_flat_map values).
Qed.

(** ** From the encoder to the receiver *)

(** X10. What [pack] writes, [Receive] gives back: a tuple of receivable
    elements, packed and received as one block by a receiver whose buffer
    is empty, is delivered element by element, in order, each as the packet
    it is meant to become, and nothing stays in the buffer. *)
Theorem Receive_pack (values : list Value) (log : list Packet) :
  Forall receivable values ->
  Receive (pack values) (mkReceiver [] log)
  = mkReceiver [] (log ++ map packet_of values).
Proof.
  exact (Receive_packed_values values log).
Qed.

(** A text, an [int], an empty text and a [char]. *)
Lemma Receive_pack_witness :
  let values := [Text [x34; x35; x36]; Pod 4 0xA0B0C0D; Text []; Pod 1 97] in
  Receive (pack values) (mkReceiver [] [])
  = mkReceiver [] ([] ++ map packet_of values).
Proof.
  intros values.
  apply (Receive_pack values []).
  repeat apply Forall_cons; try apply Forall_nil; cbn [receivable].
  - split; [discriminate | apply search_none; reflexivity].
  - split; [lia | reflexivity].
  - split; [discriminate | apply search_none; reflexivity].
  - split; [lia | reflexivity].
Defined.

(** X11. A tuple of PODs, packed, is delivered value by value whatever
    the blocks in which its bytes arrive. *)
Theorem Receive_all_packed_pods (values : list Value)
        (chunks : list (list Byte)) (log : list Packet) :
  Forall receivable values ->
  (forall v, In v values -> is_pod v = true) ->
  concat chunks = pack values ->
  Receive_all chunks (mkReceiver [] log)
  = mkReceiver [] (log ++ map packet_of values).
Proof.
  exact (packed_pods_in_blocks values chunks log).
Qed.

(** The two [long long] of the self-test, cut as [main] cuts them: at
    three quarters. *)
Lemma Receive_all_packed_pods_witness :
  let values := [Pod 8 123456789; Pod 8 987654321] in
  let chunks := [firstn 19 (pack values); skipn 19 (pack values)] in
  Receive_all chunks (mkReceiver [] [])
  = mkReceiver [] ([] ++ map packet_of values).
Proof.
  intros values chunks.
  apply (Receive_all_packed_pods values chunks []).
  - apply Forall_cons; [split; [lia | reflexivity] |].
    apply Forall_cons; [split; [lia | reflexivity] |].
    apply Forall_nil.
  - intros v [<- | [<- | []]]; reflexivity.
  - reflexivity.
Defined.

(** X12. An element of which only a part has arrived waits: nothing is
    delivered and the whole part is kept in the buffer. *)
Theorem Receive_incomplete_element_waits (v : Value) (i : nat)
        (log : list Packet) :
  receivable v ->
  i < length (encode v) ->
  Receive (firstn i (encode v)) (mkReceiver [] log)
  = mkReceiver (firstn i (encode v)) log.
Proof.
  exact (incomplete_element_kept v i log).
Qed.

(** The header of a [long long] and three bytes of its value. *)
Lemma Receive_incomplete_element_waits_witness :
  Receive (firstn 8 (encode (Pod 8 123456789))) (mkReceiver [] [])
  = mkReceiver (firstn 8 (encode (Pod 8 123456789))) [].
Proof.
  apply (Receive_incomplete_element_waits (Pod 8 123456789) 8 []).
  - split; [lia | reflexivity].
  - vm_compute. lia.
Defined.

(** X13. One packed element, POD or text, cut at any place and received
    as two blocks, is delivered exactly once, whole, and nothing stays in
    the buffer. *)
Theorem Receive_element_cut_anywhere (v : Value) (i : nat)
        (log : list Packet) :
  receivable v ->
  Receive (skipn i (encode v)) (Receive (firstn i (encode v))
                                        (mkReceiver [] log))
  = mkReceiver [] (log ++ [packet_of v]).
Proof.
  exact (element_cut_anywhere v i log).
Qed.

(** The text ["ab"] cut inside its ending. *)
Lemma Receive_element_cut_anywhere_witness :
  Receive (skipn 3 (encode (Text [x61; x62])))
          (Receive (firstn 3 (encode (Text [x61; x62]))) (mkReceiver [] []))
  = mkReceiver [] ([] ++ [packet_of (Text [x61; x62])]).
Proof.
  apply (Receive_element_cut_anywhere (Text [x61; x62]) 3 []).
  split; [discriminate | apply search_none; reflexivity].
Defined.

(** ** The checks of [main] *)

Lemma map_as_long_long (values : list Z) :
  Forall (fun v => (- 2 ^ 63 <= v < 2 ^ 63)%Z) values ->
  map (fun p => as_long_long (packet_bytes p))
      (map packet_of (map (Pod 8) values))
  = values.
Proof.
  induction 1 as [| v values Hv Hvalues IH].
  - reflexivity.
  - cbn [map packet_of packet_bytes].
    rewrite (as_long_long_object_bytes v Hv), IH. reflexivity.
Qed.

(** X14. Any tuple of [long long], packed and received in any blocks by a
    receiver with an empty buffer: one binary packet per value is added to
    the call-back, the payloads read back as [long long] are the values in
    order, and [isTopValueEqual] holds for the last value. *)
Theorem long_longs_received (values : list Z) (chunks : list (list Byte))
        (log : list Packet) :
  Forall (fun v => (- 2 ^ 63 <= v < 2 ^ 63)%Z) values ->
  concat chunks = pack (map (Pod 8) values) ->
  exists new,
    Receive_all chunks (mkReceiver [] log) = mkReceiver [] (log ++ new)
    /\ map (fun p => as_long_long (packet_bytes p)) new = values
    /\ (forall p, In p new -> is_text p = false)
    /\ (forall front v, values = front ++ [v] ->
                        top_value_equal (log ++ new) v = true).
Proof.
  intros Hvalues Hchunks.
  exists (map packet_of (map (Pod 8) values)).
  split.
  { apply packed_pods_in_blocks.
    - apply Forall_forall. intros v Hv.
      apply in_map_iff in Hv. destruct Hv as (z & <- & _).
      split; [lia | reflexivity].
    - intros v Hv.
      apply in_map_iff in Hv. destruct Hv as (z & <- & _). reflexivity.
    - exact Hchunks. }
  split; [exact (map_as_long_long values Hvalues) |].
  split.
  { intros p Hp.
    apply in_map_iff in Hp. destruct Hp as (v & <- & Hv).
    apply in_map_iff in Hv. destruct Hv as (z & <- & _). reflexivity. }
  intros front v ->.
  rewrite !map_app. cbn [map packet_of].
  rewrite app_assoc. unfold top_value_equal.
  rewrite rev_unit. cbn [packet_bytes].
  rewrite as_long_long_object_bytes.
  - apply Z.eqb_refl.
  - rewrite Forall_app in Hvalues. destruct Hvalues as [_ Hv].
    inversion Hv. assumption.
Qed.

(** A negative and a positive value, in three blocks. *)
Lemma long_longs_received_witness :
  let stream := pack (map (Pod 8) [(-5)%Z; 987654321%Z]) in
  exists new,
    Receive_all [firstn 2 stream; firstn 20 (skipn 2 stream); skipn 22 stream]
                (mkReceiver [] [])
    = mkReceiver [] ([] ++ new)
    /\ map (fun p => as_long_long (packet_bytes p)) new
       = [(-5)%Z; 987654321%Z]
    /\ (forall p, In p new -> is_text p = false)
    /\ (forall front v, [(-5)%Z; 987654321%Z] = front ++ [v] ->
                        top_value_equal ([] ++ new) v = true).
Proof.
  intros stream.
  apply (long_longs_received [(-5)%Z; 987654321%Z]).
  - apply Forall_cons; [lia |]. apply Forall_cons; [lia |]. apply Forall_nil.
  - reflexivity.
Defined.

(** ** The loop *)

(** X16. The loop of [Receive] ends, whatever the bytes: the state in
    which the [while] statement is left exists and is the one [Receive]
    goes on with.  In it [ptr] lies within the scanned block and [data]
    does not exceed [ptr], so that [processedBytes] and
    [unprocessedBytes] do not wrap and the ranges erased from or copied to
    the buffer lie within the block. *)
Theorem Receive_loop_ends_in_block (r : Receiver) (input : list Byte) :
  while_loop (buffer r ++ input) (mkScan 0 0 (callback r)) (scan r input)
  /\ data (scan r input) <= ptr (scan r input) <= length (buffer r ++ input)
  /\ (forall s', while_loop (buffer r ++ input) (mkScan 0 0 (callback r)) s' ->
                 s' = scan r input).
Proof.
  split; [apply scan_run |].
  split; [rewrite <- scanned_app; apply scan_in_block |].
  intros s' Hrun.
  exact (while_loop_deterministic _ _ _ _ Hrun (scan_run r input)).
Qed.
